(** * Blackjack: a shallow embedding of src.c

    The C program plays one round of blackjack on a terminal.  This file
    embeds its game logic: the deck built by [main], [FisherYates],
    [giveCards] and the [while(1)] loop of [main] with its two branches.

    Conventions.
    - [int] is [Z].  Scores never exceed 11 * 52 and counters never exceed
      52 in any run, far from the limits of a C [int], so no wrap-around
      is written.
    - A C array is a [list]; reading or writing outside of it is undefined
      behaviour in C and is made explicit here by [OutOfBounds], which
      carries the state as the earlier iterations left it.
    - [srand]/[rand] belong to libc; they are taken as a state machine
      ([srand] resets the generator, [rand] steps it).
    - What the program prints is kept as a list of [event]s. *)

From stdpp Require Import base numbers list strings pretty.
From Stdlib Require Import ZArith Lia.

Local Open Scope Z_scope.

(** ** Constants of the source *)

Definition DECK_SIZE : Z := 52.
Definition NUM_CARDS : Z := 13.
Definition OPTION_INPUT_LENGTH : Z := 20.

(** ** typedef struct _Card_ *)

(** [image_] stands for the glyph buffer the [char*] points to. *)
Record Card := mkCard { image_ : string; points_ : Z }.

Global Instance Card_eq_dec : EqDecision Card.
Proof. solve_decision. Defined.

(** ** Results of code that indexes arrays *)

Inductive result (A : Type) : Type :=
| Done (a : A)
| OutOfBounds (a : A).
Arguments Done {A} a.
Arguments OutOfBounds {A} a.

(** The state a computation stopped in, normally or not. *)
Definition state_of {A} (r : result A) : A :=
  match r with Done a => a | OutOfBounds a => a end.

Definition is_done {A} (r : result A) : bool :=
  match r with Done _ => true | OutOfBounds _ => false end.

(** [a[i]] for an [int] index: defined for [0 <= i < length a] only. *)
Definition index {A} (a : list A) (i : Z) : option A :=
  if 0 <=? i then a !! Z.to_nat i else None.

(** [a[i] = x], used once [index a i] is known to be defined. *)
Definition store {A} (a : list A) (i : Z) (x : A) : list A :=
  <[Z.to_nat i := x]> a.

(** ** FisherYates *)

Section Shuffle.
(** The pseudo-random generator of libc. *)
Context {rand_state : Type}.
Variable srand : Z -> rand_state.
Variable rand : rand_state -> Z * rand_state.

(** What the C standard promises of [rand]: a value from 0 to
    [RAND_MAX]. Only the lower bound matters here. *)
Definition rand_nonneg : Prop := forall g, 0 <= (rand g).1.

(** One pass of the loop body at index [i]:
    [swap_index = rand() % (i + 1)], then the three assignments. *)
Definition FisherYates_body (i : Z) (deck : list Card) (g : rand_state)
  : result (list Card * rand_state) :=
  let '(r, g') := rand g in
  let swap_index := Z.rem r (i + 1) in
  match index deck i, index deck swap_index with
  | Some tmp, Some other =>
      Done (store (store deck i other) swap_index tmp, g')
  | _, _ => OutOfBounds (deck, g')
  end.

(** [for (int i = size - 1; i > 0; i--)]: [n] is the current value of
    [i]; the loop stops at [i = 0]. *)
Fixpoint FisherYates_loop (n : nat) (deck : list Card) (g : rand_state)
  : result (list Card * rand_state) :=
  match n with
  | O => Done (deck, g)
  | S n' =>
      match FisherYates_body (Z.of_nat n) deck g with
      | Done (deck', g') => FisherYates_loop n' deck' g'
      | OutOfBounds s => OutOfBounds s
      end
  end.

(** [g0] is the state the generator was left in by whatever ran before;
    [srand(random_seed)] replaces it. *)
Definition FisherYates (g0 : rand_state) (deck : list Card) (size : Z)
           (random_seed : Z) : result (list Card * rand_state) :=
  let g := srand random_seed in
  FisherYates_loop (Z.to_nat (size - 1)) deck g.
End Shuffle.

(** The sample generator of the C standard (ISO C 7.22.2.2), with a
    32-bit [unsigned long]; used to run the model on concrete seeds. *)
Definition iso_srand (seed : Z) : Z := seed mod 2 ^ 32.
Definition iso_rand (next : Z) : Z * Z :=
  let next' := (next * 1103515245 + 12345) mod 2 ^ 32 in
  ((next' / 65536) mod 32768, next').

(** ** giveCards *)

(** The body of the [for] loop: one card goes from [cards] to
    [receiver]. The four components are the values behind [receiver],
    [*card_count], [*receiver_count] and [*score]. *)
Definition giveCards_body (cards receiver : list Card)
           (card_count receiver_count score : Z)
  : result (list Card * Z * Z * Z) :=
  match index cards card_count, index receiver receiver_count with
  | Some c, Some _ =>
      let score' :=
        if points_ c =? 11
        then (let points_ace := if score >? 10 then 1 else 11 in
              score + points_ace)
        else score + points_ c in
      Done (store receiver receiver_count c,
            card_count + 1, receiver_count + 1, score')
  | _, _ => OutOfBounds (receiver, card_count, receiver_count, score)
  end.

(** [for (int i = 0; i < amount; i++)] runs [n = Z.to_nat amount] times. *)
Fixpoint giveCards_loop (n : nat) (cards receiver : list Card)
         (card_count receiver_count score : Z)
  : result (list Card * Z * Z * Z) :=
  match n with
  | O => Done (receiver, card_count, receiver_count, score)
  | S n' =>
      match giveCards_body cards receiver card_count receiver_count score with
      | Done (receiver', card_count', receiver_count', score') =>
          giveCards_loop n' cards receiver' card_count' receiver_count' score'
      | OutOfBounds s => OutOfBounds s
      end
  end.

Definition giveCards (cards receiver : list Card)
           (card_count receiver_count score amount : Z)
  : result (list Card * Z * Z * Z) :=
  giveCards_loop (Z.to_nat amount) cards receiver
                 card_count receiver_count score.

(** The cards a hand holds: the first [count] cells of its array. *)
Definition hand (receiver : list Card) (count : Z) : list Card :=
  take (Z.to_nat count) receiver.

(** ** The deck built by main *)

Definition points : list Z := [11; 10; 10; 10; 10; 9; 8; 7; 6; 5; 4; 3; 2].

(** [for (int k = 0; k < 4; k++) cards[card_count++] = card;]
    The list is the part of [cards] written so far. *)
Definition add_four (card : Card) (cards : list Card) : list Card :=
  cards ++ [card; card; card; card].

(** The outer loop over the thirteen ranks; [card_images] holds the
    contents of the thirteen files once they have been read. *)
Fixpoint build_deck (card_images : list string) (points : list Z)
         (cards : list Card) : list Card :=
  match card_images, points with
  | image :: card_images', p :: points' =>
      build_deck card_images' points' (add_four (mkCard image p) cards)
  | _, _ => cards
  end.

Definition new_deck (card_images : list string) : list Card :=
  build_deck card_images points [].

(** ** What the program prints *)

(** The messages that end in a newline. *)
Definition newline : string := String (Ascii.ascii_of_nat 10) EmptyString.
Definition DEALERS_TURN : string := "DEALERS TURN" +:+ newline.
Definition DEALER_GETS_ANOTHER_CARD : string :=
  "DEALER GETS ANOTHER CARD.." +:+ newline.
Definition HIT_OR_STAND : string := "HIT (h) or STAND (s)" +:+ newline.

Inductive event : Type :=
| printf (s : string)
| shown (cards : list Card) (score : Z) (player : Z).

(** [showCards] prints the first [length] cards of the array and the
    score; the glyph geometry plays no part in the game. *)
Definition showCards (cards : list Card) (length score player : Z)
  : list event :=
  [shown (hand cards length) score player].

(** The spec's names for the verdicts the program prints. *)
Inductive Outcome : Type :=
| PlayerBlackjack | DealerBlackjack | Push
| PlayerWin | DealerWin | PlayerBust | DealerBust.

Definition outcome_of (s : string) : option Outcome :=
  if String.eqb s "YOU WIN!" then Some PlayerBlackjack
  else if String.eqb s "BLACKJACK! PUSH!" then Some Push
  else if String.eqb s "BLACKJACK! YOU LOOSE!" then Some DealerBlackjack
  else if String.eqb s "PUSH!" then Some Push
  else if String.eqb s "YOU LOOSE!" then Some DealerWin
  else if String.eqb s "BUST! YOU WIN!" then Some PlayerWin
  else if String.eqb s "BUST! YOU LOOSE!" then Some PlayerBust
  else None.

(** The verdicts found in an output, in the order they were printed. *)
Definition announced (out : list event) : list Outcome :=
  omap (fun e => match e with
                 | printf s => outcome_of s
                 | shown _ _ _ => None
                 end) out.

(** ** The locals of main during a round *)

Record Game := mkGame {
  cards : list Card;
  dealer : list Card;
  player : list Card;
  dealer_count : Z;
  player_count : Z;
  dealer_score : Z;
  player_score : Z;
  card_count : Z;
  players_turn : Z
}.

(** The four locals [giveCards] writes through its pointers. *)
Definition deal_to_player (g : Game) (s : list Card * Z * Z * Z) : Game :=
  let '(player', card_count', player_count', player_score') := s in
  mkGame (cards g) (dealer g) player' (dealer_count g) player_count'
         (dealer_score g) player_score' card_count' (players_turn g).

Definition deal_to_dealer (g : Game) (s : list Card * Z * Z * Z) : Game :=
  let '(dealer', card_count', dealer_count', dealer_score') := s in
  mkGame (cards g) dealer' (player g) dealer_count' (player_count g)
         dealer_score' (player_score g) card_count' (players_turn g).

Definition set_turn (g : Game) (turn : Z) : Game :=
  mkGame (cards g) (dealer g) (player g) (dealer_count g) (player_count g)
         (dealer_score g) (player_score g) (card_count g) turn.

(** How a stretch of main ends. *)
Inductive step : Type :=
| Next (out : list event) (g : Game)      (* on to the next iteration *)
| Break (out : list event) (g : Game)     (* break / return 0 *)
| Crash (out : list event) (g : Game).    (* an access out of bounds *)

(** ** From the shuffled deck to the first prompt (lines 319-349)

    [dealer0] and [player0] are the indeterminate contents of the two
    arrays when they are declared. *)
Definition opening (cards0 dealer0 player0 : list Card) : step :=
  let g0 := mkGame cards0 dealer0 player0 0 0 0 0 0 0 in
  match giveCards cards0 player0 0 0 0 2 with
  | OutOfBounds s => Crash [] (deal_to_player g0 s)
  | Done s =>
      let g1 := deal_to_player g0 s in
      match giveCards cards0 dealer0 (card_count g1) 0 0 2 with
      | OutOfBounds s' => Crash [] (deal_to_dealer g1 s')
      | Done s' =>
          let g := deal_to_dealer g1 s' in
          match index (dealer g) 0 with
          | None => Crash [] g
          | Some first =>
              let out := showCards (dealer g) 1 (points_ first) 0
                         ++ showCards (player g) (player_count g)
                                      (player_score g) 1 in
              if player_score g =? 21 then
                let out := out ++ [printf "BLACKJACK! "]
                           ++ showCards (dealer g) 2 (dealer_score g) 0 in
                if negb (dealer_score g =? 21)
                then Break (out ++ [printf "YOU WIN!"]) g
                else Break (out ++ [printf "BLACKJACK! PUSH!"]) g
              else Next out (set_turn g 1)
          end
      end
  end.

(** ** The dealer's branch of the loop (lines 353-387) *)

(** [while (dealer_score < player_score)]; [None] when [fuel] iterations
    were not enough to leave the loop. *)
Fixpoint dealer_draws (fuel : nat) (out : list event) (g : Game)
  : option (result (list event * Game)) :=
  if dealer_score g <? player_score g then
    match fuel with
    | O => None
    | S fuel' =>
        let out := out ++ [printf DEALER_GETS_ANOTHER_CARD] in
        match giveCards (cards g) (dealer g) (card_count g)
                        (dealer_count g) (dealer_score g) 1 with
        | OutOfBounds s => Some (OutOfBounds (out, deal_to_dealer g s))
        | Done s =>
            let g' := deal_to_dealer g s in
            dealer_draws fuel'
              (out ++ showCards (dealer g') (dealer_count g')
                                (dealer_score g') 0) g'
        end
    end
  else Some (Done (out, g)).

Definition dealers_turn (fuel : nat) (g : Game) : option step :=
  let out := [printf DEALERS_TURN]
             ++ showCards (dealer g) 2 (dealer_score g) 0 in
  if (dealer_score g =? 21) && (dealer_count g =? 2) then
    Some (Break (out ++ [printf "BLACKJACK! YOU LOOSE!"]) g)
  else
    match dealer_draws fuel out g with
    | None => None
    | Some (OutOfBounds (out, g)) => Some (Crash out g)
    | Some (Done (out, g)) =>
        if dealer_score g =? 21 then
          if player_score g =? 21
          then Some (Break (out ++ [printf "PUSH!"]) g)
          else Some (Break (out ++ [printf "YOU LOOSE!"]) g)
        else if dealer_score g >? 21 then
          Some (Break (out ++ [printf "BUST! YOU WIN!"]) g)
        else Some (Next out (set_turn g 1))
    end.

(** ** The player's branch of the loop (lines 388-412)

    [option] is the word [scanf("%s", option)] reads.  With its closing
    NUL it must fit [char option[OPTION_INPUT_LENGTH]]; a longer word is
    written past the end of the array. *)
Definition players_turn_branch (g : Game) (option : string) : step :=
  let out := [printf HIT_OR_STAND] in
  if OPTION_INPUT_LENGTH <=? Z.of_nat (String.length option) then
    Crash out g
  else if String.eqb option "h" then
    match giveCards (cards g) (player g) (card_count g)
                    (player_count g) (player_score g) 1 with
    | OutOfBounds s => Crash out (deal_to_player g s)
    | Done s =>
        let g := deal_to_player g s in
        let out := out ++ showCards (player g) (player_count g)
                                    (player_score g) 1 in
        if player_score g =? 21 then Next out (set_turn g 0)
        else if player_score g >? 21 then
          Break (out ++ [printf "BUST! YOU LOOSE!"]) g
        else Next out g
    end
  else if String.eqb option "s" then Next out (set_turn g 0)
  else Next out g.

(** ** The loop of main

    The dealer's branch reads nothing; the player's branch takes the next
    word of the input.  [fuel] bounds the iterations of [while(1)] and of
    the dealer's inner loop. *)

(** How a run of the program ends. *)
Inductive run : Type :=
| Exit (out : list event) (g : Game)         (* main returns 0 *)
| Waiting (out : list event) (g : Game)      (* scanf waits for a word *)
| Undefined (out : list event) (g : Game)    (* out-of-bounds access *)
| NoFuel (out : list event) (g : Game).

Fixpoint main_loop (fuel : nat) (out : list event) (g : Game)
         (input : list string) : run :=
  match fuel with
  | O => NoFuel out g
  | S fuel' =>
      if players_turn g =? 0 then
        match dealers_turn fuel g with
        | None => NoFuel out g
        | Some (Next o g') => main_loop fuel' (out ++ o) g' input
        | Some (Break o g') => Exit (out ++ o) g'
        | Some (Crash o g') => Undefined (out ++ o) g'
        end
      else
        match input with
        | [] => Waiting (out ++ [printf HIT_OR_STAND]) g
        | option :: input' =>
            match players_turn_branch g option with
            | Next o g' => main_loop fuel' (out ++ o) g' input'
            | Break o g' => Exit (out ++ o) g'
            | Crash o g' => Undefined (out ++ o) g'
            end
        end
  end.

(** The round, from the shuffled deck on. *)
Definition play (fuel : nat) (cards0 dealer0 player0 : list Card)
           (input : list string) : run :=
  match opening cards0 dealer0 player0 with
  | Crash out g => Undefined out g
  | Break out g => Exit out g
  | Next out g => main_loop fuel out g input
  end.

(** ** The shuffle as the spec words it *)

Section ShuffleSpec.
Context {rand_state : Type}.
Variable srand : Z -> rand_state.
Variable rand : rand_state -> Z * rand_state.

(** Exchange the elements at positions [i] and [j]. *)
Definition swap (l : list Card) (i j : nat) : list Card :=
  match l !! i, l !! j with
  | Some x, Some y => <[j := x]> (<[i := y]> l)
  | _, _ => l
  end.

(** The indices from [last] down to 1. *)
Definition down_to_1 (last : nat) : list nat := reverse (seq 1 last).

(** For each index [i] in turn, the next number of the generator
    reduced to the range from 0 to [i]. *)
Fixpoint draws (indices : list nat) (g : rand_state) : list (nat * nat) :=
  match indices with
  | [] => []
  | i :: indices' =>
      let '(r, g') := rand g in
      (i, Z.to_nat (r mod (Z.of_nat i + 1))) :: draws indices' g'
  end.

Definition spec_shuffle (deck : list Card) (seed : Z) : list Card :=
  foldl (fun d '(i, j) => swap d i j) deck
        (draws (down_to_1 (length deck - 1)) (srand seed)).
End ShuffleSpec.

(** ** A concrete deck to run the model on *)

Definition sample_images : list string :=
  ["A"; "K"; "Q"; "J"; "10"; "9"; "8"; "7"; "6"; "5"; "4"; "3"; "2"]%string.

Definition sample_deck : list Card := new_deck sample_images.

(** A hand array of [DECK_SIZE] cells nothing has been dealt to. *)
Definition blank_hand : list Card :=
  replicate (Z.to_nat DECK_SIZE) (mkCard "" 0).

(** ** Vocabulary for the statements about dealing *)

(** What a card adds to a running score. *)
Definition gain (score : Z) (c : Card) : Z :=
  if points_ c =? 11 then (if score >? 10 then 1 else 11) else points_ c.

(** The running score after a sequence of cards. *)
Definition total (score : Z) (dealt : list Card) : Z :=
  foldl (fun s c => s + gain s c) score dealt.

(** The score [giveCards] leaves after dealing [dealt] to an empty hand. *)
Definition score_after (dealt : list Card) : Z :=
  (state_of (giveCards dealt blank_hand 0 0 0 (Z.of_nat (length dealt)))).2.

(** Every card of the deck carries one of the thirteen values of
    [points]. *)
Definition deck_points_ok (cards : list Card) : Prop :=
  Forall (fun c => points_ c ∈ points) cards.

(** Some cards by name. *)
Definition Ace : Card := mkCard "A" 11.
Definition King : Card := mkCard "K" 10.
Definition Ten : Card := mkCard "10" 10.
Definition Two : Card := mkCard "2" 2.

(** ** The states the loop of main passes through *)

(** What [main] has set up when the round starts: a deck of [DECK_SIZE]
    cards with values from [points] (in any order: the shuffle has run)
    and two hand arrays of [DECK_SIZE] cells. *)
Definition round_ok (cards0 dealer0 player0 : list Card) : Prop :=
  Z.of_nat (length cards0) = DECK_SIZE /\
  deck_points_ok cards0 /\
  Z.of_nat (length dealer0) = DECK_SIZE /\
  Z.of_nat (length player0) = DECK_SIZE.

(** The states at the head of [while(1)]. *)
Inductive reachable (cards0 dealer0 player0 : list Card) : Game -> Prop :=
| reach_opening out g :
    opening cards0 dealer0 player0 = Next out g ->
    reachable cards0 dealer0 player0 g
| reach_dealer fuel out g g' :
    reachable cards0 dealer0 player0 g ->
    players_turn g = 0 ->
    dealers_turn fuel g = Some (Next out g') ->
    reachable cards0 dealer0 player0 g'
| reach_player option out g g' :
    reachable cards0 dealer0 player0 g ->
    players_turn g <> 0 ->
    players_turn_branch g option = Next out g' ->
    reachable cards0 dealer0 player0 g'.

(** What holds of the counters and scores all through a round. *)
Definition counts_ok (g : Game) : Prop :=
  Z.of_nat (length (cards g)) = DECK_SIZE /\
  deck_points_ok (cards g) /\
  Z.of_nat (length (dealer g)) = DECK_SIZE /\
  Z.of_nat (length (player g)) = DECK_SIZE /\
  card_count g = player_count g + dealer_count g /\
  0 <= player_count g <= player_score g /\
  0 <= dealer_count g <= dealer_score g /\
  player_score g <= 21.

(** What holds in addition at the head of the loop. *)
Definition table_ok (g : Game) : Prop :=
  counts_ok g /\
  dealer_score g <= 21 /\
  (players_turn g <> 0 -> player_score g <= 20).

(** ** Decks in a chosen order *)

(** The card of the [k]-th rank of [sample_images] and [points]. *)
Definition rank (k : nat) : Card :=
  default (mkCard "" 0) (zip_with mkCard sample_images points !! k).

(** The ranks of a full deck, four of each. *)
Definition all_ranks : list nat := n ← seq 0 13; replicate 4 n.

Fixpoint take_out (k : nat) (l : list nat) : list nat :=
  match l with
  | [] => []
  | x :: l' => if decide (x = k) then l' else x :: take_out k l'
  end.

(** The cards of [sample_deck] with the ranks [top] dealt first and the
    other cards after them. *)
Definition stacked (top : list nat) : list Card :=
  rank <$> (top ++ foldl (fun l k => take_out k l) all_ranks top).

(** A word too long for [char option[OPTION_INPUT_LENGTH]]. *)
Definition long_word : string := "hit-me-one-more-time-please".

(** ** Concrete tables *)

Definition game_of (s : step) : Game :=
  match s with Next _ g | Break _ g | Crash _ g => g end.

(** The player has stood on 10, 7; the dealer shows 10, 2. *)
Definition table_17_12 : Game :=
  set_turn (game_of (opening (stacked [4; 7; 4; 12; 7]%nat)
                             blank_hand blank_hand)) 0.

(** The player has stood on 10, K; the dealer holds A, Q. *)
Definition table_20_21 : Game :=
  set_turn (game_of (opening (stacked [4; 1; 0; 2]%nat)
                             blank_hand blank_hand)) 0.

(** ** Proof steps used more than once *)

Ltac unfold_ok := unfold table_ok, counts_ok, DECK_SIZE in *.

(** ** Vocabulary for the statements about whole rounds *)

(** The state and the output a run ends with. *)
Definition game_of_run (r : run) : Game :=
  match r with
  | Exit _ g | Waiting _ g | Undefined _ g | NoFuel _ g => g
  end.

Definition output_of_run (r : run) : list event :=
  match r with
  | Exit out _ | Waiting out _ | Undefined out _ | NoFuel out _ => out
  end.

(** A word [scanf] can store in [option] together with its NUL. *)
Definition fits (option : string) : Prop :=
  Z.of_nat (String.length option) < OPTION_INPUT_LENGTH.

(** The two hands are the cards dealt so far, and each score is the one
    the cards of the hand add up to in the order they came. *)
Definition hands_ok (g : Game) : Prop :=
  hand (player g) (player_count g) ++ hand (dealer g) (dealer_count g)
  ≡ₚ take (Z.to_nat (card_count g)) (cards g) /\
  player_score g = total 0 (hand (player g) (player_count g)) /\
  dealer_score g = total 0 (hand (dealer g) (dealer_count g)).

(** What the scores and counters are like when a verdict is printed. *)
Definition verdict_ok (v : Outcome) (g : Game) : Prop :=
  match v with
  | PlayerBlackjack =>
      player_score g = 21 /\ player_count g = 2 /\ dealer_count g = 2 /\
      dealer_score g <> 21
  | Push => player_score g = 21 /\ dealer_score g = 21
  | DealerBlackjack =>
      dealer_score g = 21 /\ dealer_count g = 2 /\ player_score g <= 21
  | DealerWin =>
      dealer_score g = 21 /\ 2 < dealer_count g /\ player_score g < 21
  | PlayerWin => 21 < dealer_score g /\ player_score g <= 21
  | PlayerBust => 21 < player_score g
  | DealerBust => False
  end.

(** The loop invariant [table_ok] together with the two cards each hand
    has held since the opening deal. *)
Definition seated (g : Game) : Prop :=
  table_ok g /\ 2 <= player_count g /\ 2 <= dealer_count g.


(** The player stood on 17 and the dealer has drawn from 12 to 19: the
    state the run of [dealer_ahead_no_verdict] waits in. *)
Definition table_17_19 : Game :=
  game_of_run (play 5 (stacked [4; 7; 4; 12; 7]%nat) blank_hand blank_hand
                    ["s"%string]).

(** The dealer drew a 9 to 10, 2 against a player standing on 17: a
    dealer at 21 on three cards. *)
Definition table_17_21 : Game :=
  game_of_run (play 5 (stacked [4; 7; 4; 12; 5]%nat) blank_hand blank_hand
                    ["s"%string]).

(** ** Loading the card images (main, lines 215-312)

    The loop that reads the thirteen files, checks their shape and puts
    four cards of each into the deck.  What happens before it (the
    program arguments, the path, the seed) is not modelled: [file_path]
    is the path as [main] has it when the loop starts. *)

Definition ALLOC_SIZE : Z := 50.
Definition ARGUMENTS_ERROR : Z := -1.

Definition file_names : list string :=
  ["ace.txt"; "king.txt"; "queen.txt"; "jack.txt"; "10.txt";
   "9.txt"; "8.txt"; "7.txt"; "6.txt";
   "5.txt"; "4.txt"; "3.txt"; "2.txt"]%string.

(** The character ['\n']. *)
Definition LF : Ascii.ascii := Ascii.ascii_of_nat 10.


(** How the loading ends. *)
Inductive loading (A : Type) : Type :=
| Loaded (a : A)
| FileError          (* return fileError() *)
| MemoryError        (* return memoryError() *)
| Overrun.           (* an access outside of an array *)
Arguments Loaded {A} a.
Arguments FileError {A}.
Arguments MemoryError {A}.
Arguments Overrun {A}.

Section Loader.
(** The file system: the contents of the file [fopen] opens at a path,
    [None] where it returns [NULL]. *)
Variable fopen : string -> option string.
(** The heap: whether the request number [n] to [malloc] or [realloc] is
    granted. *)
Variable alloc : nat -> bool.

(** [while ((c = getc(card_file)) != EOF)].  [image] is what has been
    written to [card_images[i]] so far, [nch] characters in a buffer of
    [size] bytes. *)
Fixpoint read_chars (content image : string)
         (nch nln lnlen currlnlen size : Z) (requests : nat)
  : loading (string * Z * Z * Z * Z * nat) :=
  match content with
  | EmptyString => Loaded (image, nch, nln, lnlen, size, requests)
  | String c content' =>
      let grow := size - 1 <=? nch in
      if grow && negb (alloc requests) then MemoryError else
      let size := if grow then size * 2 else size in
      let requests := if grow then S requests else requests in
      if (0 <=? nch) && (nch <? size) then
        let image := image +:+ String c EmptyString in
        let nch := nch + 1 in
        let currlnlen := currlnlen + 1 in
        if Ascii.eqb c LF then
          let nln := nln + 1 in
          if lnlen =? -1 then
            read_chars content' image nch nln currlnlen 0 size requests
          else if negb (currlnlen =? lnlen) then FileError
          else read_chars content' image nch nln lnlen 0 size requests
        else read_chars content' image nch nln lnlen currlnlen size requests
      else Overrun
  end.

(** One pass of the loop over the files, for the file at index [i]. *)
Definition load_file (file_path : string) (i : Z) (cards : list Card)
           (image_height image_width size : Z) (requests : nat)
  : loading (list Card * Z * Z * Z * nat) :=
  match index file_names i, index points i with
  | Some name, Some p =>
      match fopen (file_path +:+ name) with
      | None => FileError
      | Some content =>
          if negb (alloc requests) then MemoryError else
          match read_chars content EmptyString 0 0 (-1) 0 size (S requests)
          with
          | Loaded (image, nch, nln, lnlen, size, requests) =>
              if i =? 0 then
                Loaded (add_four (mkCard image p) cards, nln, lnlen,
                        size, requests)
              else if negb (image_height =? nln)
                      || negb (image_width =? lnlen) then FileError
              else
                Loaded (add_four (mkCard image p) cards, image_height,
                        image_width, size, requests)
          | FileError => FileError
          | MemoryError => MemoryError
          | Overrun => Overrun
          end
      end
  | _, _ => Overrun
  end.

(** [for (int i = 0; i < NUM_CARDS; i++)], with [n] passes to go. *)
Fixpoint load_loop (n : nat) (file_path : string) (i : Z)
         (cards : list Card) (image_height image_width size : Z)
         (requests : nat)
  : loading (list Card * Z * Z * Z * nat) :=
  match n with
  | O => Loaded (cards, image_height, image_width, size, requests)
  | S n' =>
      match load_file file_path i cards image_height image_width size
                      requests with
      | Loaded (cards, image_height, image_width, size, requests) =>
          load_loop n' file_path (i + 1) cards image_height image_width
                    size requests
      | FileError => FileError
      | MemoryError => MemoryError
      | Overrun => Overrun
      end
  end.

(** The whole loop: the deck, [image_height] and [image_width]. *)
Definition load_cards (file_path : string) : loading (list Card * Z * Z) :=
  match load_loop (Z.to_nat NUM_CARDS) file_path 0 [] 0 0 ALLOC_SIZE 0 with
  | Loaded (cards, image_height, image_width, _, _) =>
      Loaded (cards, image_height, image_width)
  | FileError => FileError
  | MemoryError => MemoryError
  | Overrun => Overrun
  end.
End Loader.

(** The lengths of the lines of a text that end in a newline, newline
    included, the first of them counted from [currlnlen]. *)
Fixpoint line_lengths (currlnlen : Z) (content : string) : list Z :=
  match content with
  | EmptyString => []
  | String c content' =>
      if Ascii.eqb c LF then (currlnlen + 1) :: line_lengths 0 content'
      else line_lengths (currlnlen + 1) content'
  end.

(** A text of [height] lines of [width] characters each, newline
    included; what follows the last newline does not count. *)
Definition rectangular (width height : Z) (content : string) : Prop :=
  line_lengths 0 content = replicate (Z.to_nat height) width /\
  0 <= height /\ (height = 0 -> width = -1).



(** ** A file system to run the loader on *)

(** A picture of two lines of four characters for a rank. *)
Definition sample_glyph (label : string) : string :=
  "[" +:+ label +:+ "]" +:+ newline +:+ "[__]" +:+ newline.

Definition sample_contents : list string :=
  sample_glyph <$> ["A "; "K "; "Q "; "J "; "10"; "9 "; "8 "; "7 "; "6 ";
                    "5 "; "4 "; "3 "; "2 "]%string.

Fixpoint assoc (path : string) (files : list (string * string))
  : option string :=
  match files with
  | [] => None
  | (name, content) :: files' =>
      if String.eqb name path then Some content else assoc path files'
  end.

(** The thirteen files under [cards/], and nothing else. *)
Definition sample_fopen (path : string) : option string :=
  assoc path (zip ((fun name => "cards/" +:+ name) <$> file_names)
                  sample_contents).

(** The same without the file of the queen. *)
Definition fopen_no_queen (path : string) : option string :=
  if String.eqb path "cards/queen.txt" then None else sample_fopen path.

(** ** showCards, character by character (lines 66-90)

    [showCards] above records that a hand was shown; this is what it
    prints.  An image is the text the loader stored; past its end the
    buffer holds nothing that was read from the file, and going there is
    counted as leaving the array. *)

Definition RULE : string :=
  "____________________________________________________________"
  +:+ newline.

(** [while ( *img != '\n') { printf("%c", *img); img++; }]: the characters
    printed, [None] if the text ends before a newline is met. *)
Fixpoint print_line (img : string) : option string :=
  match img with
  | EmptyString => None
  | String c img' =>
      if Ascii.eqb c LF then Some EmptyString
      else String c <$> print_line img'
  end.

(** [img += offset] *)
Fixpoint advance (offset : nat) (img : string) : option string :=
  match offset, img with
  | O, _ => Some img
  | S offset', String _ img' => advance offset' img'
  | S _, EmptyString => None
  end.

Definition image_at (image : string) (offset : Z) : option string :=
  if 0 <=? offset then advance (Z.to_nat offset) image else None.

(** [for (int i = 0; i < length; i++)], with [n] cards to go. *)
Fixpoint show_row (n : nat) (cards : list Card) (i offset : Z)
         (out : string) : result string :=
  match n with
  | O => Done out
  | S n' =>
      match index cards i with
      | None => OutOfBounds out
      | Some card =>
          match image_at (image_ card) offset with
          | None => OutOfBounds out
          | Some img =>
              match print_line img with
              | None => OutOfBounds (out +:+ img)
              | Some line =>
                  show_row n' cards (i + 1) offset (out +:+ line +:+ "  ")
              end
          end
      end
  end.

(** [for (int j = 0; j < height; j++)], with [m] rows to go. *)
Fixpoint show_rows (m : nat) (cards : list Card) (length width offset : Z)
         (out : string) : result string :=
  match m with
  | O => Done out
  | S m' =>
      match show_row (Z.to_nat length) cards 0 offset out with
      | Done out =>
          show_rows m' cards length width (offset + width) (out +:+ newline)
      | OutOfBounds out => OutOfBounds out
      end
  end.

Definition showCards_text (cards : list Card)
           (length score width height player : Z) : result string :=
  let out := (if player =? 1
              then "YOUR CARDS:" +:+ newline +:+ newline
              else "DEALERS CARDS:" +:+ newline +:+ newline) +:+ RULE in
  match show_rows (Z.to_nat height) cards length width 0 out with
  | Done out =>
      Done (out +:+ "score:" +:+ pretty score +:+ newline +:+ newline
                +:+ RULE)
  | OutOfBounds out => OutOfBounds out
  end.

(** The picture of a hand: row [j] of every card, two blanks after
    each, one row to a line. *)
Definition picture_row (width : Z) (j : nat) (hand : list Card) : string :=
  foldr (fun c acc =>
           String.substring (j * Z.to_nat width) (Z.to_nat width - 1)
                            (image_ c) +:+ "  " +:+ acc)
        newline hand.

Definition picture (width : Z) (height : nat) (hand : list Card) : string :=
  foldr (fun j acc => picture_row width j hand +:+ acc) EmptyString
        (seq 0 height).

(** ** What the presenter is handed *)

Definition output_of (s : step) : list event :=
  match s with Next out _ | Break out _ | Crash out _ => out end.

(** Every hand shown in [out] is made of cards of [deck]. *)
Definition shows_cards_of (deck : list Card) (out : list event) : Prop :=
  Forall (fun e => match e with
                   | shown hand _ _ => hand ⊆ deck
                   | printf _ => True
                   end) out.

(** The hands hold dealt cards of [deck], two of them at least in the
    dealer's. *)
Definition dealt_ok (deck : list Card) (g : Game) : Prop :=
  hands_ok g /\ cards g = deck /\ 2 <= dealer_count g.

(** ** main, from the loading of the images on (lines 236-417) *)




(** ** The range of int *)

(** [INT_MIN] and [INT_MAX] of limits.h for an [int] of 32 bits. *)
Definition INT_MAX : Z := 2147483647.
Definition INT_MIN : Z := -2147483648.

Definition int_range (z : Z) : Prop := INT_MIN <= z <= INT_MAX.

(** The values [*score] takes while the cards of [dealt] are added to
    it one by one, the first and the last included. *)
Fixpoint running (score : Z) (dealt : list Card) : list Z :=
  match dealt with
  | [] => [score]
  | c :: dealt' => score :: running (score + gain score c) dealt'
  end.

(** The calls of [giveCards] in which every [int] is an [int] and stays
    one: the arguments and the points of the cards are in range, neither
    counter is incremented past [INT_MAX], and no addition to the score
    leaves the range. *)
Definition giveCards_in_range (cards : list Card)
           (card_count receiver_count score amount : Z) : Prop :=
  int_range amount /\
  int_range card_count /\ card_count + Z.max 0 amount <= INT_MAX /\
  int_range receiver_count /\ receiver_count + Z.max 0 amount <= INT_MAX /\
  Forall (fun c => int_range (points_ c)) cards /\
  Forall int_range
         (running score (take (Z.to_nat amount)
                              (drop (Z.to_nat card_count) cards))).

(** ** The standard input and its end (lines 390-411)

    [scanf("%s", option)] stores the next word of the input and a NUL
    after it, and [strcmp] compares up to the first NUL.  [main] does
    not look at what [scanf] returns: when the input has ended nothing is
    stored, and the comparisons are made on what the array holds, which
    is the word of the last pass that read one (the array is declared in
    the branch, without an initialiser, and nothing else writes to its
    place in the frame of [main]), or nothing that was ever written. *)

Definition NUL : Ascii.ascii := Ascii.zero.

(** The string a [char] array holds: its bytes up to the first NUL. *)
Fixpoint c_string (bytes : string) : string :=
  match bytes with
  | EmptyString => EmptyString
  | String c bytes' =>
      if Ascii.eqb c NUL then EmptyString else String c (c_string bytes')
  end.

(** The prompt and the two comparisons (lines 391 and 393-411), for an
    array that holds the bytes [option] and a NUL after them. *)
Definition act_on_option (g : Game) (option : string) : step :=
  let out := [printf HIT_OR_STAND] in
  if String.eqb (c_string option) "h" then
    match giveCards (cards g) (player g) (card_count g)
                    (player_count g) (player_score g) 1 with
    | OutOfBounds s => Crash out (deal_to_player g s)
    | Done s =>
        let g := deal_to_player g s in
        let out := out ++ showCards (player g) (player_count g)
                                    (player_score g) 1 in
        if player_score g =? 21 then Next out (set_turn g 0)
        else if player_score g >? 21 then
          Break (out ++ [printf "BUST! YOU LOOSE!"]) g
        else Next out g
    end
  else if String.eqb (c_string option) "s" then Next out (set_turn g 0)
  else Next out g.

(** The loop of main on the words [input] and what comes after them:
    the end of the file if [closed], and otherwise nothing yet, so that
    [scanf] waits.  [held] is the word [option] holds from an earlier
    pass, [None] as long as no word has been read. *)
Fixpoint main_loop_stdin (closed : bool) (fuel : nat) (out : list event)
         (g : Game) (held : Datatypes.option string) (input : list string)
  : run :=
  match fuel with
  | O => NoFuel out g
  | S fuel' =>
      if players_turn g =? 0 then
        match dealers_turn fuel g with
        | None => NoFuel out g
        | Some (Next o g') =>
            main_loop_stdin closed fuel' (out ++ o) g' held input
        | Some (Break o g') => Exit (out ++ o) g'
        | Some (Crash o g') => Undefined (out ++ o) g'
        end
      else
        match input with
        | option :: input' =>
            if OPTION_INPUT_LENGTH <=? Z.of_nat (String.length option) then
              Undefined (out ++ [printf HIT_OR_STAND]) g
            else
              match act_on_option g option with
              | Next o g' =>
                  main_loop_stdin closed fuel' (out ++ o) g' (Some option)
                                  input'
              | Break o g' => Exit (out ++ o) g'
              | Crash o g' => Undefined (out ++ o) g'
              end
        | [] =>
            if negb closed then Waiting (out ++ [printf HIT_OR_STAND]) g
            else
              match held with
              | None => Undefined (out ++ [printf HIT_OR_STAND]) g
              | Some option =>
                  match act_on_option g option with
                  | Next o g' =>
                      main_loop_stdin closed fuel' (out ++ o) g' held input
                  | Break o g' => Exit (out ++ o) g'
                  | Crash o g' => Undefined (out ++ o) g'
                  end
              end
        end
  end.

Definition play_stdin (closed : bool) (fuel : nat)
           (cards0 dealer0 player0 : list Card) (input : list string)
  : run :=
  match opening cards0 dealer0 player0 with
  | Crash out g => Undefined out g
  | Break out g => Exit out g
  | Next out g => main_loop_stdin closed fuel out g None input
  end.


(** The word [option] holds when the words of [input] have been read. *)
Definition stale (held : Datatypes.option string) (input : list string)
  : Datatypes.option string :=
  match last input with
  | Some option => Some option
  | None => held
  end.

(** The word [h], a NUL and more bytes after it. *)
Definition h_nul_x : string :=
  "h" +:+ String NUL "x".

(** * Properties *)

(** ** Arrays *)

Lemma index_Some {A} (a : list A) (i : Z) (x : A) :
  index a i = Some x <-> 0 <= i /\ a !! Z.to_nat i = Some x.
Proof.
  unfold index. destruct (Z.leb_spec 0 i); split.
  - auto.
  - intros [_ H']; exact H'.
  - discriminate.
  - intros [? _]; lia.
Qed.

Lemma index_in_range {A} (a : list A) (i : Z) :
  0 <= i < Z.of_nat (length a) -> exists x, index a i = Some x.
Proof.
  intros Hi.
  destruct (lookup_lt_is_Some_2 a (Z.to_nat i)) as [x Hx]; [lia|].
  exists x. apply index_Some. split; [lia | exact Hx].
Qed.

Lemma index_None {A} (a : list A) (i : Z) :
  i < 0 \/ Z.of_nat (length a) <= i -> index a i = None.
Proof.
  intros Hi. unfold index. destruct (Z.leb_spec 0 i); [|reflexivity].
  apply lookup_ge_None. lia.
Qed.

Lemma index_Some_range {A} (a : list A) (i : Z) (x : A) :
  index a i = Some x -> 0 <= i < Z.of_nat (length a).
Proof.
  intros [H0 Hx]%index_Some. apply lookup_lt_Some in Hx. lia.
Qed.

Lemma length_store {A} (a : list A) (i : Z) (x : A) :
  length (store a i x) = length a.
Proof. apply length_insert. Qed.

(** ** FisherYates *)

Section ShuffleFacts.
Context {rand_state : Type}.
Variable srand : Z -> rand_state.
Variable rand : rand_state -> Z * rand_state.

Lemma swap_index_range (g : rand_state) (i : Z) :
  rand_nonneg rand -> 0 <= i ->
  0 <= Z.rem (rand g).1 (i + 1) <= i.
Proof.
  intros Hr Hi. pose proof (Z.rem_bound_pos (rand g).1 (i + 1) (Hr g)).
  lia.
Qed.

Lemma FisherYates_body_Done (i : Z) (deck : list Card) (g : rand_state) :
  rand_nonneg rand -> 0 <= i < Z.of_nat (length deck) ->
  exists tmp other,
    index deck i = Some tmp /\
    index deck (Z.rem (rand g).1 (i + 1)) = Some other /\
    FisherYates_body rand i deck g =
    Done (store (store deck i other) (Z.rem (rand g).1 (i + 1)) tmp,
          (rand g).2).
Proof.
  intros Hr Hi.
  pose proof (swap_index_range g i Hr (proj1 Hi)) as Hj.
  destruct (index_in_range deck i Hi) as [tmp Htmp].
  destruct (index_in_range deck (Z.rem (rand g).1 (i + 1))) as [other Ho];
    [lia|].
  exists tmp, other. split; [exact Htmp|]. split; [exact Ho|].
  unfold FisherYates_body. destruct (rand g) as [r g']; simpl in *.
  rewrite Htmp, Ho. reflexivity.
Qed.

Lemma store_swap_Permutation (deck : list Card) (i j : Z) (x y : Card) :
  index deck i = Some x -> index deck j = Some y ->
  store (store deck i y) j x ≡ₚ deck.
Proof.
  intros [_ Hx]%index_Some [_ Hy]%index_Some. unfold store.
  by apply Permutation_insert_swap.
Qed.

Lemma FisherYates_loop_Permutation (n : nat) :
  rand_nonneg rand ->
  forall (deck : list Card) (g : rand_state),
    (n < length deck)%nat \/ n = O ->
    exists deck' g',
      FisherYates_loop rand n deck g = Done (deck', g') /\
      deck' ≡ₚ deck.
Proof.
  intros Hr. induction n as [|n IH]; intros deck g Hn.
  - exists deck, g. split; reflexivity.
  - destruct Hn as [Hn|]; [|discriminate].
    destruct (FisherYates_body_Done (Z.of_nat (S n)) deck g Hr)
      as (tmp & other & Htmp & Ho & Hbody); [lia|].
    cbn [FisherYates_loop]. rewrite Hbody.
    pose proof (store_swap_Permutation deck _ _ _ _ Htmp Ho) as Hp.
    destruct (IH (store (store deck (Z.of_nat (S n)) other)
                        (Z.rem (rand g).1 (Z.of_nat (S n) + 1)) tmp)
                 (rand g).2) as (deck' & g' & Hl & Hp').
    { left. rewrite !length_store. lia. }
    exists deck', g'. split; [exact Hl|]. by rewrite Hp'.
Qed.

Lemma down_to_1_S (n : nat) : down_to_1 (S n) = S n :: down_to_1 n.
Proof.
  unfold down_to_1. rewrite seq_S, reverse_snoc. reflexivity.
Qed.

Lemma FisherYates_body_swap (n : nat) (deck : list Card) (g : rand_state) :
  rand_nonneg rand -> (n < length deck)%nat ->
  FisherYates_body rand (Z.of_nat n) deck g =
  Done (swap deck n (Z.to_nat ((rand g).1 mod (Z.of_nat n + 1))),
        (rand g).2).
Proof.
  intros Hr Hn.
  destruct (FisherYates_body_Done (Z.of_nat n) deck g Hr)
    as (tmp & other & Htmp & Ho & ->); [lia|].
  rewrite Z.rem_mod_nonneg in * by (try apply Hr; lia).
  apply index_Some in Htmp as [_ Htmp]. apply index_Some in Ho as [_ Ho].
  rewrite Nat2Z.id in Htmp.
  unfold swap, store. rewrite Htmp, Ho, Nat2Z.id. reflexivity.
Qed.

Lemma length_swap (l : list Card) (i j : nat) :
  length (swap l i j) = length l.
Proof.
  unfold swap. destruct (l !! i), (l !! j); try reflexivity.
  by rewrite !length_insert.
Qed.

Lemma FisherYates_loop_spec (n : nat) :
  rand_nonneg rand ->
  forall (deck : list Card) (g : rand_state),
    (n < length deck)%nat \/ n = O ->
    exists g',
      FisherYates_loop rand n deck g =
      Done (foldl (fun d '(i, j) => swap d i j) deck
                  (draws rand (down_to_1 n) g), g').
Proof.
  intros Hr. induction n as [|n IH]; intros deck g Hn.
  - exists g. reflexivity.
  - destruct Hn as [Hn|]; [|discriminate].
    cbn [FisherYates_loop]. rewrite FisherYates_body_swap by assumption.
    rewrite down_to_1_S. cbn [draws].
    destruct (rand g) as [r g1] eqn:Hg. cbn [foldl fst snd].
    apply IH. left. rewrite length_swap. lia.
Qed.

Lemma draws_indices (indices : list nat) (g : rand_state) :
  (draws rand indices g).*1 = indices.
Proof.
  revert g. induction indices as [|i indices IH]; intros g; [reflexivity|].
  cbn [draws]. destruct (rand g) as [r g']. cbn. by rewrite IH.
Qed.

Lemma draws_range (indices : list nat) (g : rand_state) :
  rand_nonneg rand ->
  Forall (fun m => (0 <= m.2 <= m.1)%nat) (draws rand indices g).
Proof.
  intros Hr. revert g.
  induction indices as [|i indices IH]; intros g; [constructor|].
  cbn [draws]. pose proof (Hr g) as H0.
  destruct (rand g) as [r g']. constructor; [|apply IH].
  cbn in *. pose proof (Z.mod_pos_bound r (Z.of_nat i + 1)). lia.
Qed.
Lemma index_fmap (f : Card -> Card) (deck : list Card) (i : Z) :
  index (f <$> deck) i = f <$> index deck i.
Proof. unfold index. destruct (0 <=? i); [apply list_lookup_fmap | done]. Qed.

(** The shuffle moves cards by position only: relabelling the cards and
    shuffling is shuffling and relabelling. Two decks in the same order
    of ranks, built apart from each other, are shuffled alike. *)
Lemma FisherYates_loop_fmap (f : Card -> Card) (n : nat) :
  forall (deck : list Card) (g : rand_state),
    FisherYates_loop rand n (f <$> deck) g =
    match FisherYates_loop rand n deck g with
    | Done (deck', g') => Done (f <$> deck', g')
    | OutOfBounds (deck', g') => OutOfBounds (f <$> deck', g')
    end.
Proof.
  induction n as [|n IH]; intros deck g; [reflexivity|].
  cbn [FisherYates_loop]. unfold FisherYates_body.
  destruct (rand g) as [r g1]. rewrite !index_fmap.
  destruct (index deck (Z.of_nat (S n))) as [tmp|]; [|reflexivity].
  destruct (index deck (Z.rem r (Z.of_nat (S n) + 1))) as [other|];
    [|reflexivity].
  cbn [fmap option_fmap option_map]. unfold store.
  rewrite <- !list_fmap_insert. apply IH.
Qed.
End ShuffleFacts.

Lemma iso_rand_nonneg : rand_nonneg iso_rand.
Proof.
  intros g. unfold iso_rand. cbn.
  apply Z.mod_pos_bound. reflexivity.
Qed.

(** C4. Shuffling is deterministic in the seed: two runs of
    [FisherYates] with the same seed on decks in the same order give the
    same result, whatever state the generator was in before each run
    ([srand] resets it). *)
Theorem FisherYates_deterministic {rand_state : Type}
        (srand : Z -> rand_state) (rand : rand_state -> Z * rand_state)
        (g1 g2 : rand_state) (deck1 deck2 : list Card) (size seed : Z) :
  deck1 = deck2 ->
  FisherYates srand rand g1 deck1 size seed =
  FisherYates srand rand g2 deck2 size seed.
Proof. intros ->. reflexivity. Qed.

Lemma FisherYates_deterministic_witness :
  FisherYates iso_srand iso_rand 1 sample_deck DECK_SIZE 7 =
  FisherYates iso_srand iso_rand 99 sample_deck DECK_SIZE 7.
Proof. apply FisherYates_deterministic. reflexivity. Defined.

(** C5. For every seed the shuffle runs to its end and its output is a
    permutation of its input: the same cards, none duplicated or lost.
    [size] may be any number up to the length of the array; [main] passes
    [DECK_SIZE] for its 52 cards. *)
Theorem FisherYates_permutation {rand_state : Type}
        (srand : Z -> rand_state) (rand : rand_state -> Z * rand_state)
        (g0 : rand_state) (deck : list Card) (size seed : Z) :
  rand_nonneg rand ->
  size <= Z.of_nat (length deck) ->
  exists deck' g',
    FisherYates srand rand g0 deck size seed = Done (deck', g') /\
    deck' ≡ₚ deck.
Proof.
  intros Hr Hsize. unfold FisherYates.
  apply FisherYates_loop_Permutation; [exact Hr|]. lia.
Qed.

Lemma FisherYates_permutation_witness :
  exists deck' g',
    FisherYates iso_srand iso_rand 0 sample_deck DECK_SIZE 2024 =
    Done (deck', g') /\ deck' ≡ₚ sample_deck.
Proof.
  apply FisherYates_permutation;
    [exact iso_rand_nonneg | vm_compute; discriminate].
Defined.

(** C6. [FisherYates] performs exactly the steps the spec lists: the
    indices visited run from the last one down to 1, each index [i] is
    paired with a [j] between 0 and [i] inclusive, taken from the
    generator seeded with [seed], and the result is the deck after
    swapping each such pair in turn. *)
Theorem FisherYates_refines_spec {rand_state : Type}
        (srand : Z -> rand_state) (rand : rand_state -> Z * rand_state)
        (g0 : rand_state) (deck : list Card) (seed : Z) :
  rand_nonneg rand ->
  let moves := draws rand (down_to_1 (length deck - 1)) (srand seed) in
  moves.*1 = down_to_1 (length deck - 1) /\
  Forall (fun m => (0 <= m.2 <= m.1)%nat) moves /\
  exists g',
    FisherYates srand rand g0 deck (Z.of_nat (length deck)) seed =
    Done (spec_shuffle srand rand deck seed, g').
Proof.
  intros Hr moves. split; [apply draws_indices|].
  split; [by apply draws_range|].
  unfold FisherYates, spec_shuffle.
  replace (Z.to_nat (Z.of_nat (length deck) - 1)) with (length deck - 1)%nat
    by lia.
  apply FisherYates_loop_spec; [exact Hr|]. lia.
Qed.

Lemma FisherYates_refines_spec_witness :
  let moves := draws iso_rand (down_to_1 (length sample_deck - 1))
                     (iso_srand 5) in
  moves.*1 = down_to_1 (length sample_deck - 1) /\
  Forall (fun m => (0 <= m.2 <= m.1)%nat) moves /\
  exists g',
    FisherYates iso_srand iso_rand 0 sample_deck
                (Z.of_nat (length sample_deck)) 5 =
    Done (spec_shuffle iso_srand iso_rand sample_deck 5, g').
Proof. apply FisherYates_refines_spec. exact iso_rand_nonneg. Defined.

(** The indices of a 52-card deck are visited from 51 down to 1. *)
Example down_to_1_51 :
  down_to_1 51 =
  [51; 50; 49; 48; 47; 46; 45; 44; 43; 42; 41; 40; 39; 38; 37; 36; 35;
   34; 33; 32; 31; 30; 29; 28; 27; 26; 25; 24; 23; 22; 21; 20; 19; 18;
   17; 16; 15; 14; 13; 12; 11; 10; 9; 8; 7; 6; 5; 4; 3; 2; 1]%nat.
Proof. reflexivity. Qed.

(** ** giveCards *)

Lemma giveCards_one (cards receiver : list Card)
      (card_count receiver_count score : Z) :
  giveCards cards receiver card_count receiver_count score 1 =
  giveCards_body cards receiver card_count receiver_count score.
Proof.
  unfold giveCards. change (Z.to_nat 1) with 1%nat. cbn [giveCards_loop].
  destruct (giveCards_body _ _ _ _ _) as [[[[? ?] ?] ?]|?]; reflexivity.
Qed.

Lemma giveCards_body_Done (cards receiver : list Card)
      (card_count receiver_count score : Z) (c : Card) :
  index cards card_count = Some c ->
  0 <= receiver_count < Z.of_nat (length receiver) ->
  giveCards_body cards receiver card_count receiver_count score =
  Done (store receiver receiver_count c, card_count + 1,
        receiver_count + 1, score + gain score c).
Proof.
  intros Hc Hr. destruct (index_in_range receiver receiver_count Hr) as [x Hx].
  unfold giveCards_body, gain. rewrite Hc, Hx.
  destruct (points_ c =? 11); reflexivity.
Qed.

Lemma giveCards_body_deck_end (cards receiver : list Card)
      (card_count receiver_count score : Z) :
  Z.of_nat (length cards) <= card_count ->
  giveCards_body cards receiver card_count receiver_count score =
  OutOfBounds (receiver, card_count, receiver_count, score).
Proof.
  intros H. unfold giveCards_body. rewrite index_None by lia. reflexivity.
Qed.

Lemma hand_store (receiver : list Card) (count : Z) (c : Card) :
  0 <= count < Z.of_nat (length receiver) ->
  hand (store receiver count c) (count + 1) = hand receiver count ++ [c].
Proof.
  intros H. unfold hand, store.
  replace (Z.to_nat (count + 1)) with (S (Z.to_nat count)) by lia.
  rewrite (take_S_r _ _ c) by (apply list_lookup_insert_eq; lia).
  rewrite take_insert_ge by lia. reflexivity.
Qed.

(** [n] cards that are still in the deck and fit the hand are all dealt,
    in deck order. *)
Lemma giveCards_loop_Done (n : nat) :
  forall (cards receiver : list Card) (card_count receiver_count score : Z),
    0 <= card_count ->
    card_count + Z.of_nat n <= Z.of_nat (length cards) ->
    0 <= receiver_count ->
    receiver_count + Z.of_nat n <= Z.of_nat (length receiver) ->
    exists receiver',
      giveCards_loop n cards receiver card_count receiver_count score =
      Done (receiver', card_count + Z.of_nat n, receiver_count + Z.of_nat n,
            total score (take n (drop (Z.to_nat card_count) cards))) /\
      length receiver' = length receiver /\
      hand receiver' (receiver_count + Z.of_nat n) =
      hand receiver receiver_count ++ take n (drop (Z.to_nat card_count) cards).
Proof.
  induction n as [|n IH]; intros cards receiver cc rc score Hcc Hn Hrc Hrn.
  - exists receiver. cbn [giveCards_loop take total foldl].
    rewrite !Z.add_0_r, app_nil_r. auto.
  - destruct (index_in_range cards cc) as [c Hc]; [lia|].
    cbn [giveCards_loop].
    rewrite (giveCards_body_Done _ _ _ _ _ c) by (auto; lia).
    destruct (IH cards (store receiver rc c) (cc + 1) (rc + 1)
                 (score + gain score c)) as (receiver' & Hl & Hlen & Hh);
      try (rewrite ?length_store; lia).
    apply index_Some in Hc as [_ Hc].
    replace (Z.to_nat (cc + 1)) with (S (Z.to_nat cc)) in * by lia.
    rewrite (drop_S _ c (Z.to_nat cc)) by exact Hc.
    exists receiver'. rewrite Hl, Hlen, length_store.
    replace (cc + 1 + Z.of_nat n) with (cc + Z.of_nat (S n)) in * by lia.
    replace (rc + 1 + Z.of_nat n) with (rc + Z.of_nat (S n)) in * by lia.
    rewrite Hh, hand_store by lia.
    split; [reflexivity|]. split; [reflexivity|].
    cbn [take]. by rewrite <- app_assoc.
Qed.

Lemma giveCards_loop_app (n m : nat) :
  forall (cards receiver : list Card) (card_count receiver_count score : Z),
    giveCards_loop (n + m) cards receiver card_count receiver_count score =
    match giveCards_loop n cards receiver card_count receiver_count score with
    | Done (receiver', card_count', receiver_count', score') =>
        giveCards_loop m cards receiver' card_count' receiver_count' score'
    | OutOfBounds s => OutOfBounds s
    end.
Proof.
  induction n as [|n IH]; intros cards receiver cc rc score.
  - reflexivity.
  - cbn [Nat.add giveCards_loop].
    destruct (giveCards_body cards receiver cc rc score)
      as [[[[r1 c1] k1] s1]|s]; [apply IH | reflexivity].
Qed.

Lemma gain_positive (score : Z) (c : Card) :
  points_ c ∈ points -> 1 <= gain score c <= 11.
Proof.
  unfold gain, points. intros H.
  repeat (apply elem_of_cons in H as [->|H]);
    [..|by apply elem_of_nil in H];
    cbn; try lia; destruct (score >? 10); lia.
Qed.

Lemma giveCards_one_inv (cards receiver : list Card)
      (card_count receiver_count score : Z) (s : list Card * Z * Z * Z) :
  giveCards cards receiver card_count receiver_count score 1 = Done s ->
  exists c,
    index cards card_count = Some c /\
    0 <= receiver_count < Z.of_nat (length receiver) /\
    s = (store receiver receiver_count c, card_count + 1,
         receiver_count + 1, score + gain score c).
Proof.
  rewrite giveCards_one. unfold giveCards_body.
  destruct (index cards card_count) as [c|] eqn:Hc; [|discriminate].
  destruct (index receiver receiver_count) as [x|] eqn:Hx; [|discriminate].
  intros H. exists c. split; [reflexivity|].
  split; [by eapply index_Some_range|].
  unfold gain. destruct (points_ c =? 11); congruence.
Qed.

(** C3. Adding a card to a hand updates the running score greedily: an
    Ace (11 points) adds 1 when the score before it is above 10 and 11
    otherwise, any other card adds its points; the card is appended to
    the hand.  So an Ace alone scores 11, two Aces 12, an Ace and a
    ten-valued card 21, and 10, 10, 2 score 22. *)
Theorem giveCards_scoring (cards receiver : list Card)
        (card_count receiver_count score : Z) (c : Card) :
  index cards card_count = Some c ->
  0 <= receiver_count < Z.of_nat (length receiver) ->
  (exists receiver',
      giveCards cards receiver card_count receiver_count score 1 =
      Done (receiver', card_count + 1, receiver_count + 1,
            score + (if points_ c =? 11
                     then (if score >? 10 then 1 else 11)
                     else points_ c)) /\
      hand receiver' (receiver_count + 1) =
      hand receiver receiver_count ++ [c]) /\
  score_after [Ace] = 11 /\
  score_after [Ace; Ace] = 12 /\
  score_after [Ace; Ten] = 21 /\
  score_after [Ace; King] = 21 /\
  score_after [Ten; Ten; Two] = 22.
Proof.
  intros Hc Hr. split; [|repeat split; reflexivity].
  exists (store receiver receiver_count c).
  rewrite giveCards_one, (giveCards_body_Done _ _ _ _ _ c) by assumption.
  split; [reflexivity | by apply hand_store].
Qed.

Lemma giveCards_scoring_witness :
  (exists receiver',
      giveCards sample_deck blank_hand 0 2 11 1 =
      Done (receiver', 0 + 1, 2 + 1,
            11 + (if points_ Ace =? 11
                  then (if 11 >? 10 then 1 else 11)
                  else points_ Ace)) /\
      hand receiver' (2 + 1) = hand blank_hand 2 ++ [Ace]) /\
  score_after [Ace] = 11 /\
  score_after [Ace; Ace] = 12 /\
  score_after [Ace; Ten] = 21 /\
  score_after [Ace; King] = 21 /\
  score_after [Ten; Ten; Two] = 22.
Proof.
  apply (giveCards_scoring sample_deck blank_hand 0 2 11 Ace);
    [reflexivity | vm_compute; split; [discriminate | reflexivity]].
Defined.

(** C2, as the code has it. [giveCards] has no exhaustion check: asked
    for more cards than are left, it deals every card that is left, just
    as a request for exactly that many would, and only then indexes the
    deck past its end.  The hand, the score and the cursor have changed
    by then. *)
Theorem giveCards_deals_until_deck_end (cards receiver : list Card)
        (card_count receiver_count score amount : Z) :
  let remaining := Z.of_nat (length cards) - card_count in
  0 <= card_count <= Z.of_nat (length cards) ->
  0 <= receiver_count ->
  receiver_count + remaining <= Z.of_nat (length receiver) ->
  remaining < amount ->
  exists receiver' score',
    giveCards cards receiver card_count receiver_count score remaining =
    Done (receiver', Z.of_nat (length cards),
          receiver_count + remaining, score') /\
    giveCards cards receiver card_count receiver_count score amount =
    OutOfBounds (receiver', Z.of_nat (length cards),
                 receiver_count + remaining, score') /\
    hand receiver' (receiver_count + remaining) =
    hand receiver receiver_count ++ drop (Z.to_nat card_count) cards /\
    score' = total score (drop (Z.to_nat card_count) cards).
Proof.
  intros remaining Hcc Hrc Hroom Hmore. subst remaining.
  set (n := Z.to_nat (Z.of_nat (length cards) - card_count)).
  destruct (giveCards_loop_Done n cards receiver card_count receiver_count
              score) as (receiver' & Hl & Hlen & Hh); try lia.
  replace (card_count + Z.of_nat n) with (Z.of_nat (length cards)) in * by lia.
  replace (Z.of_nat (length cards) - card_count) with (Z.of_nat n) by lia.
  rewrite take_ge in * by (rewrite length_drop; lia).
  exists receiver', (total score (drop (Z.to_nat card_count) cards)).
  split; [unfold giveCards; rewrite Nat2Z.id; exact Hl|].
  split; [|split; [exact Hh | reflexivity]].
  unfold giveCards.
  replace (Z.to_nat amount) with (n + S (Z.to_nat amount - n - 1))%nat by lia.
  rewrite giveCards_loop_app, Hl. cbn [giveCards_loop].
  rewrite giveCards_body_deck_end by lia. reflexivity.
Qed.

Lemma giveCards_deals_until_deck_end_witness :
  exists receiver' score',
    giveCards sample_deck blank_hand 50 0 0 2 =
    Done (receiver', 52, 0 + 2, score') /\
    giveCards sample_deck blank_hand 50 0 0 5 =
    OutOfBounds (receiver', 52, 0 + 2, score') /\
    hand receiver' (0 + 2) = hand blank_hand 0 ++ drop 50 sample_deck /\
    score' = total 0 (drop 50 sample_deck).
Proof.
  apply (giveCards_deals_until_deck_end sample_deck blank_hand 50 0 0 5);
    vm_compute; try split; discriminate || reflexivity.
Defined.

(** C2 as stated fails: with one card left, a request for two cards
    leaves the hand, its score and the cursor changed. *)
Lemma giveCards_partial_deal :
  Z.of_nat (length sample_deck) - 51 < 2 /\
  giveCards sample_deck blank_hand 51 0 0 2 =
  OutOfBounds (store blank_hand 0 Two, 52, 1, 2) /\
  hand (store blank_hand 0 Two) 1 = [Two] /\
  hand blank_hand 0 = [] /\
  state_of (giveCards sample_deck blank_hand 51 0 0 2) <>
  (blank_hand, 51, 0, 0).
Proof. repeat split; vm_compute; discriminate || reflexivity. Qed.

(** ** Scores *)

Lemma gain_soft (score : Z) (c : Card) :
  points_ c ∈ points -> score <= 11 -> score + gain score c <= 21.
Proof.
  unfold gain, points. intros H Hs.
  repeat (apply elem_of_cons in H as [->|H]);
    [..|by apply elem_of_nil in H];
    cbn; try lia; destruct (Z.gtb_spec score 10); lia.
Qed.

Lemma total_two (cards : list Card) :
  deck_points_ok cards -> (2 <= length cards)%nat ->
  2 <= total 0 (take 2 cards) <= 21.
Proof.
  intros Hok Hlen.
  destruct cards as [|c1 [|c2 cards]]; cbn in Hlen; try lia.
  apply Forall_cons in Hok as [H1 Hok]. apply Forall_cons in Hok as [H2 _].
  unfold total. simpl. rewrite !Z.add_0_l.
  pose proof (gain_positive 0 c1 H1).
  pose proof (gain_positive (gain 0 c1) c2 H2).
  pose proof (gain_soft (gain 0 c1) c2 H2). lia.
Qed.

Lemma deck_points_ok_drop (cards : list Card) (n : nat) :
  deck_points_ok cards -> deck_points_ok (drop n cards).
Proof. apply Forall_drop. Qed.

Lemma deck_points_ok_index (cards : list Card) (i : Z) (c : Card) :
  deck_points_ok cards -> index cards i = Some c -> points_ c ∈ points.
Proof.
  intros Hok [_ Hc]%index_Some.
  exact (Forall_lookup_1 _ _ _ _ Hok Hc).
Qed.

(** One card dealt from a deck of valid cards: the score grows by 1 to
    11 and the counters by one. *)
Lemma giveCards_one_Done (cards receiver : list Card)
      (card_count receiver_count score : Z) (s : list Card * Z * Z * Z) :
  deck_points_ok cards ->
  giveCards cards receiver card_count receiver_count score 1 = Done s ->
  exists receiver' score',
    s = (receiver', card_count + 1, receiver_count + 1, score') /\
    length receiver' = length receiver /\
    score + 1 <= score' <= score + 11 /\
    (score <= 11 -> score' <= 21).
Proof.
  intros Hok (c & Hc & Hr & ->)%giveCards_one_inv.
  pose proof (deck_points_ok_index _ _ _ Hok Hc) as Hp.
  pose proof (gain_positive score c Hp).
  pose proof (gain_soft score c Hp).
  eexists _, _. split; [reflexivity|]. rewrite length_store.
  split; [reflexivity|]. split; lia.
Qed.

Lemma giveCards_one_in_range (cards receiver : list Card)
      (card_count receiver_count score : Z) :
  0 <= card_count < Z.of_nat (length cards) ->
  0 <= receiver_count < Z.of_nat (length receiver) ->
  exists s,
    giveCards cards receiver card_count receiver_count score 1 = Done s.
Proof.
  intros Hc Hr. destruct (index_in_range cards card_count Hc) as [c Hc'].
  eexists. rewrite giveCards_one. by apply giveCards_body_Done.
Qed.

(** ** The dealer's loop *)

Lemma announced_app (out1 out2 : list event) :
  announced (out1 ++ out2) = announced out1 ++ announced out2.
Proof. apply omap_app. Qed.

(** The dealer's loop ends within [player_score - dealer_score]
    iterations whenever the cards carry valid points. *)
Lemma dealer_draws_terminates (fuel : nat) :
  forall (out : list event) (g : Game),
    deck_points_ok (cards g) ->
    (Z.to_nat (player_score g - dealer_score g) <= fuel)%nat ->
    exists r, dealer_draws fuel out g = Some r /\
              (is_done r = true ->
               player_score (state_of r).2 <= dealer_score (state_of r).2).
Proof.
  induction fuel as [|fuel IH]; intros out g Hok Hfuel.
  - cbn [dealer_draws]. destruct (Z.ltb_spec (dealer_score g) (player_score g));
      [lia|]. eexists. split; [reflexivity|]. cbn. lia.
  - cbn [dealer_draws].
    destruct (Z.ltb_spec (dealer_score g) (player_score g)) as [Hlt|Hge].
    + destruct (giveCards _ _ _ _ _ 1) as [s|s] eqn:Hg.
      * destruct (giveCards_one_Done _ _ _ _ _ _ Hok Hg)
          as (d' & s' & -> & _ & Hs & _).
        apply IH; cbn; [exact Hok | lia].
      * eexists. split; [reflexivity|]. discriminate.
    + eexists. split; [reflexivity|]. cbn. lia.
Qed.

(** ** The opening deal *)

(** The state once both hands hold their two cards. *)
Lemma opening_deal (cards0 dealer0 player0 : list Card) :
  (4 <= length cards0)%nat ->
  (2 <= length dealer0)%nat ->
  (2 <= length player0)%nat ->
  exists player' dealer' first,
    let g := mkGame cards0 dealer' player' 2 2
                    (total 0 (take 2 (drop 2 cards0)))
                    (total 0 (take 2 cards0)) 4 0 in
    let out := showCards dealer' 1 (points_ first) 0
               ++ showCards player' 2 (player_score g) 1 in
    length player' = length player0 /\
    length dealer' = length dealer0 /\
    hand player' 2 = take 2 cards0 /\
    hand dealer' 2 = take 2 (drop 2 cards0) /\
    opening cards0 dealer0 player0 =
    if player_score g =? 21 then
      let out := out ++ [printf "BLACKJACK! "]
                 ++ showCards dealer' 2 (dealer_score g) 0 in
      if negb (dealer_score g =? 21)
      then Break (out ++ [printf "YOU WIN!"]) g
      else Break (out ++ [printf "BLACKJACK! PUSH!"]) g
    else Next out (set_turn g 1).
Proof.
  intros Hc Hd Hp.
  destruct (giveCards_loop_Done 2 cards0 player0 0 0 0)
    as (player' & Hgp & Hlp & Hhp); try lia.
  destruct (giveCards_loop_Done 2 cards0 dealer0 2 0 0)
    as (dealer' & Hgd & Hld & Hhd); try lia.
  destruct (index_in_range dealer' 0) as [first Hfirst]; [lia|].
  exists player', dealer', first. cbn zeta.
  split; [exact Hlp|]. split; [exact Hld|].
  split; [exact Hhp|]. split; [exact Hhd|].
  unfold opening, giveCards.
  change (Z.to_nat 2) with 2%nat. rewrite Hgp. cbn [deal_to_player card_count].
  change (0 + Z.of_nat 2) with 2. rewrite Hgd.
  cbn [deal_to_dealer dealer player player_score player_count dealer_score
       dealer_count cards card_count players_turn].
  change (0 + Z.of_nat 2) with 2. change (2 + Z.of_nat 2) with 4.
  rewrite Hfirst. change (Z.to_nat 0) with 0%nat.
  change (Z.to_nat 2) with 2%nat.
  cbn [drop]. reflexivity.
Qed.

Lemma opening_table_ok (cards0 dealer0 player0 : list Card)
      (out : list event) (g : Game) :
  round_ok cards0 dealer0 player0 ->
  opening cards0 dealer0 player0 = Next out g ->
  table_ok g /\ players_turn g = 1 /\ cards g = cards0.
Proof.
  unfold round_ok, DECK_SIZE. intros (Hc & Hok & Hd & Hp) Hopen.
  destruct (opening_deal cards0 dealer0 player0)
    as (player' & dealer' & first & Hlp & Hld & _ & _ & Heq); try lia.
  rewrite Heq in Hopen. clear Heq. cbn zeta in Hopen.
  cbn [player_score dealer_score] in Hopen.
  pose proof (total_two cards0 Hok) as Hps.
  pose proof (total_two (drop 2 cards0) (deck_points_ok_drop _ 2 Hok)) as Hds.
  rewrite length_drop in Hds.
  destruct (Z.eqb_spec (total 0 (take 2 cards0)) 21) as [|Hne].
  { destruct (negb _); discriminate. }
  injection Hopen as <- <-.
  unfold table_ok, counts_ok, DECK_SIZE. cbn. rewrite Hlp, Hld.
  repeat split; auto; lia.
Qed.

(** ** The invariant of the loop of main *)

(** While the counters are as [counts_ok] says, the dealer's loop never
    runs off the deck, and it leaves the player's locals alone. *)
Lemma dealer_draws_counts_ok (fuel : nat) :
  forall (out : list event) (g : Game) (r : result (list event * Game)),
    counts_ok g ->
    dealer_draws fuel out g = Some r ->
    exists out' g',
      r = Done (out', g') /\ counts_ok g' /\
      player_score g' <= dealer_score g' /\
      players_turn g' = players_turn g /\
      player g' = player g /\ player_count g' = player_count g /\
      player_score g' = player_score g /\
      announced out' = announced out.
Proof.
  induction fuel as [|fuel IH]; intros out g r Hok; cbn [dealer_draws];
    destruct (Z.ltb_spec (dealer_score g) (player_score g)) as [Hlt|Hge];
    try discriminate;
    try (intros [= <-]; exists out, g; split; [reflexivity|];
         split; [exact Hok|]; split; [lia|]; repeat split; reflexivity).
  unfold_ok. destruct Hok as (Hc & Hp & Hd & Hpl & Hcc & Hpc & Hdc & Hps).
  destruct (giveCards_one_in_range (cards g) (dealer g) (card_count g)
              (dealer_count g) (dealer_score g)) as [s Hs]; try lia.
  rewrite Hs.
  destruct (giveCards_one_Done _ _ _ _ _ _ Hp Hs)
    as (d' & s' & -> & Hlen & Hs' & _).
  intros Hr. apply IH in Hr.
  - destruct Hr as (out' & g' & -> & Hok' & Hle & Ht & Hpl' & Hpc' & Hps' & Ha).
    exists out', g'. cbn in *. split; [reflexivity|].
    split; [exact Hok'|]. split; [exact Hle|].
    repeat (split; [assumption|]).
    rewrite Ha, !announced_app. cbn. by rewrite !app_nil_r.
  - unfold counts_ok, DECK_SIZE. cbn. rewrite Hlen. repeat split; auto; lia.
Qed.

Lemma dealers_turn_table_ok (fuel : nat) (g g' : Game) (out : list event) :
  table_ok g ->
  dealers_turn fuel g = Some (Next out g') ->
  table_ok g' /\ players_turn g' = 1 /\ announced out = [].
Proof.
  intros (Hok & Hds & Hturn). unfold dealers_turn.
  destruct (_ && _); [discriminate|].
  destruct (dealer_draws fuel _ g) as [r|] eqn:Hr; [|discriminate].
  destruct (dealer_draws_counts_ok _ _ _ _ Hok Hr)
    as (out' & g1 & -> & Hok1 & Hle & _ & _ & _ & _ & Ha).
  destruct (Z.eqb_spec (dealer_score g1) 21);
    [destruct (player_score g1 =? 21); discriminate|].
  destruct (Z.gtb_spec (dealer_score g1) 21); [discriminate|].
  intros [= <- <-]. unfold_ok. cbn. split; [|split; [reflexivity|]].
  - destruct Hok1 as (? & ? & ? & ? & ? & ? & ? & ?).
    repeat split; auto; lia.
  - rewrite Ha. reflexivity.
Qed.

Lemma players_turn_branch_table_ok (g g' : Game) (option : string)
      (out : list event) :
  table_ok g -> players_turn g <> 0 ->
  players_turn_branch g option = Next out g' ->
  table_ok g'.
Proof.
  intros (Hok & Hds & Hturn) Hnz. specialize (Hturn Hnz).
  unfold players_turn_branch.
  destruct (OPTION_INPUT_LENGTH <=? _); [discriminate|].
  destruct (String.eqb option "h").
  - unfold_ok. destruct Hok as (Hc & Hp & Hd & Hpl & Hcc & Hpc & Hdc & Hps).
    destruct (giveCards _ _ _ _ _ 1) as [s|s] eqn:Hs; [|discriminate].
    destruct (giveCards_one_Done _ _ _ _ _ _ Hp Hs)
      as (p' & s' & -> & Hlen & Hs' & _).
    cbn [deal_to_player player_score player_count player].
    destruct (Z.eqb_spec s' 21);
      [|destruct (Z.gtb_spec s' 21); [discriminate|]];
      intros [= <- <-]; cbn; rewrite Hlen; repeat split; auto; lia.
  - destruct (String.eqb option "s"); intros [= <- <-].
    + unfold_ok. cbn. destruct Hok as (? & ? & ? & ? & ? & ? & ? & ?).
      repeat split; auto; lia.
    + unfold table_ok. auto.
Qed.

Lemma reachable_table_ok (cards0 dealer0 player0 : list Card) (g : Game) :
  round_ok cards0 dealer0 player0 ->
  reachable cards0 dealer0 player0 g ->
  table_ok g.
Proof.
  intros Hround Hreach. induction Hreach as
      [out g Hopen | fuel out g g' _ IH _ Hstep
       | option out g g' _ IH Hnz Hstep].
  - by destruct (opening_table_ok _ _ _ _ _ Hround Hopen).
  - by destruct (dealers_turn_table_ok _ _ _ _ IH Hstep).
  - by eapply players_turn_branch_table_ok.
Qed.

(** In a round the deck is never used up: at most 42 of its 52 cards have
    been dealt whenever the loop is at its head. *)
Lemma reachable_cards_left (cards0 dealer0 player0 : list Card) (g : Game) :
  round_ok cards0 dealer0 player0 ->
  reachable cards0 dealer0 player0 g ->
  0 <= card_count g <= 42 /\ Z.of_nat (length (cards g)) = DECK_SIZE.
Proof.
  intros Hround Hreach.
  destruct (reachable_table_ok _ _ _ _ Hround Hreach) as (Hok & Hds & _).
  unfold counts_ok in Hok. split; [lia | tauto].
Qed.

(** ** Decks used in the examples *)

Example stacked_is_sample_deck :
  stacked [4; 7; 4; 12; 7]%nat ≡ₚ sample_deck /\
  stacked [4; 7; 4; 12; 9]%nat ≡ₚ sample_deck /\
  stacked [0; 1; 5; 5]%nat ≡ₚ sample_deck /\
  stacked [0; 1; 0; 2]%nat ≡ₚ sample_deck /\
  stacked [4; 1; 0; 2]%nat ≡ₚ sample_deck /\
  stacked [4; 9; 0; 2; 8]%nat ≡ₚ sample_deck /\
  stacked [1; 2; 3; 4; 9]%nat ≡ₚ sample_deck.
Proof. repeat split; compute_done. Qed.

Lemma sample_deck_ok : round_ok sample_deck blank_hand blank_hand.
Proof. unfold round_ok, deck_points_ok. repeat split; compute_done. Qed.

Lemma round_ok_Permutation (cards0 cards1 dealer0 player0 : list Card) :
  cards1 ≡ₚ cards0 ->
  round_ok cards0 dealer0 player0 -> round_ok cards1 dealer0 player0.
Proof.
  unfold round_ok, deck_points_ok. intros Hp (Hl & Hok & Hd & Hpl).
  rewrite Hp. auto.
Qed.

(** The deck [main] builds and shuffles is a legitimate deck whenever the
    thirteen images were loaded. *)
Lemma build_deck_points (card_images : list string) (pts : list Z)
      (cards : list Card) :
  Forall (fun c => points_ c ∈ points) cards ->
  pts ⊆ points ->
  Forall (fun c => points_ c ∈ points) (build_deck card_images pts cards).
Proof.
  revert pts cards. induction card_images as [|image card_images IH];
    intros [|p pts] cards Hcards Hsub; cbn [build_deck]; auto.
  assert (Hp : p ∈ points) by (apply Hsub; left).
  apply IH; [|intros x Hx; apply Hsub; by right].
  unfold add_four. apply Forall_app. split; [exact Hcards|].
  repeat (apply Forall_cons; split; [exact Hp|]). apply Forall_nil_2.
Qed.

Lemma build_deck_length (card_images : list string) (pts : list Z)
      (cards : list Card) :
  length (build_deck card_images pts cards) =
  (length cards + 4 * min (length card_images) (length pts))%nat.
Proof.
  revert pts cards. induction card_images as [|image card_images IH];
    intros [|p pts] cards; cbn [build_deck length]; try lia.
  rewrite IH. unfold add_four. rewrite length_app. cbn [length]. lia.
Qed.

Lemma shuffled_deck_ok {rand_state : Type}
      (srand : Z -> rand_state) (rand : rand_state -> Z * rand_state)
      (g0 : rand_state) (images : list string) (seed : Z) :
  rand_nonneg rand ->
  Z.of_nat (length images) = NUM_CARDS ->
  exists cards0 g',
    FisherYates srand rand g0 (new_deck images) DECK_SIZE seed =
    Done (cards0, g') /\
    round_ok cards0 blank_hand blank_hand.
Proof.
  unfold NUM_CARDS. intros Hr Himg.
  assert (Hlen : length (new_deck images) = 52%nat).
  { unfold new_deck. rewrite build_deck_length.
    replace (length images) with 13%nat by lia. reflexivity. }
  destruct (FisherYates_loop_Permutation rand (Z.to_nat (DECK_SIZE - 1)) Hr
              (new_deck images) (srand seed)) as (cards0 & g' & Hl & Hp).
  { left. rewrite Hlen. unfold DECK_SIZE. lia. }
  exists cards0, g'. split; [exact Hl|].
  unfold round_ok, deck_points_ok, DECK_SIZE. rewrite Hp, Hlen.
  repeat split; try reflexivity.
  apply build_deck_points; [constructor | done].
Qed.

(** ** The dealer's turn *)

(** C10. Every card dealt from a deck of valid cards raises the score of
    the hand that receives it by at least 1; so the dealer's loop, which
    runs while the dealer's score is below the player's and deals one
    card each time, ends within [player_score - dealer_score] iterations,
    with the dealer's score no longer below the player's.  In the states
    of a round it ends without running off the deck. *)
Theorem dealt_card_raises_score (g : Game) :
  deck_points_ok (cards g) ->
  (forall receiver card_count receiver_count score s,
      giveCards (cards g) receiver card_count receiver_count score 1 = Done s ->
      score + 1 <= s.2) /\
  (forall fuel out,
      (Z.to_nat (player_score g - dealer_score g) <= fuel)%nat ->
      exists r,
        dealer_draws fuel out g = Some r /\
        (is_done r = true ->
         player_score (state_of r).2 <= dealer_score (state_of r).2) /\
        (counts_ok g -> is_done r = true)).
Proof.
  intros Hok. split.
  - intros receiver cc rc score s Hs.
    destruct (giveCards_one_Done _ _ _ _ _ _ Hok Hs)
      as (r' & s' & -> & _ & Hs' & _). cbn. lia.
  - intros fuel out Hfuel.
    destruct (dealer_draws_terminates fuel out g Hok Hfuel) as (r & Hr & Hle).
    exists r. split; [exact Hr|]. split; [exact Hle|].
    intros Hc.
    destruct (dealer_draws_counts_ok _ _ _ _ Hc Hr) as (out' & g' & -> & _).
    reflexivity.
Qed.

Lemma table_17_12_points : deck_points_ok (cards table_17_12).
Proof. unfold deck_points_ok. compute_done. Qed.

Lemma dealt_card_raises_score_witness :
  (forall receiver card_count receiver_count score s,
      giveCards (cards table_17_12) receiver card_count receiver_count
                score 1 = Done s ->
      score + 1 <= s.2) /\
  (forall fuel out,
      (Z.to_nat (player_score table_17_12 - dealer_score table_17_12)
       <= fuel)%nat ->
      exists r,
        dealer_draws fuel out table_17_12 = Some r /\
        (is_done r = true ->
         player_score (state_of r).2 <= dealer_score (state_of r).2) /\
        (counts_ok table_17_12 -> is_done r = true)).
Proof. apply dealt_card_raises_score. exact table_17_12_points. Defined.

(** What the dealer's loop leaves as it found it. *)
Lemma dealer_draws_exit (fuel : nat) :
  forall (out out' : list event) (g g' : Game),
    dealer_draws fuel out g = Some (Done (out', g')) ->
    player_score g' <= dealer_score g' /\
    player_score g' = player_score g /\
    player_count g' = player_count g /\
    player g' = player g /\
    cards g' = cards g /\
    announced out' = announced out.
Proof.
  induction fuel as [|fuel IH]; intros out out' g g'; cbn [dealer_draws];
    destruct (Z.ltb_spec (dealer_score g) (player_score g)) as [Hlt|Hge];
    try discriminate;
    try (intros [= <- <-]; repeat split; lia || reflexivity).
  destruct (giveCards _ _ _ _ _ 1) as [[[[d' c'] k'] s']|s]; [|discriminate].
  intros (Hle & Hps & Hpc & Hp & Hc & Ha)%IH. cbn in *.
  repeat (split; [assumption|]).
  rewrite Ha, !announced_app. cbn. by rewrite !app_nil_r.
Qed.

(** C1, as the code has it. When the dealer's loop ends with the dealer
    neither at 21 nor above it, no verdict is printed: the dealer's score
    is at least the player's, and the turn goes back to the player
    ([players_turn = 1]), whether the dealer is ahead or level. *)
Theorem dealers_turn_hands_back (n : nat) (g g' : Game) (out : list event) :
  (dealer_score g =? 21) && (dealer_count g =? 2) = false ->
  dealer_draws (S n)
               ([printf DEALERS_TURN]
                ++ showCards (dealer g) 2 (dealer_score g) 0) g
  = Some (Done (out, g')) ->
  dealer_score g' <> 21 ->
  dealer_score g' <= 21 ->
  player_score g' <= dealer_score g' /\
  dealers_turn (S n) g = Some (Next out (set_turn g' 1)) /\
  announced out = [] /\
  (players_turn g = 0 ->
   forall out0 input,
     main_loop (S n) out0 g input =
     main_loop n (out0 ++ out) (set_turn g' 1) input).
Proof.
  intros Hnat Hloop Hne Hle.
  destruct (dealer_draws_exit _ _ _ _ _ Hloop) as (Hge & _ & _ & _ & _ & Ha).
  assert (Hturn : dealers_turn (S n) g = Some (Next out (set_turn g' 1))).
  { unfold dealers_turn. rewrite Hnat, Hloop.
    destruct (Z.eqb_spec (dealer_score g') 21); [contradiction|].
    destruct (Z.gtb_spec (dealer_score g') 21); [lia | reflexivity]. }
  split; [exact Hge|]. split; [exact Hturn|]. split; [by rewrite Ha|].
  intros H0 out0 input. cbn [main_loop]. rewrite H0. cbn [Z.eqb].
  rewrite Hturn. reflexivity.
Qed.

Lemma dealers_turn_hands_back_witness :
  exists out g',
    player_score g' <= dealer_score g' /\
    dealers_turn 3 table_17_12 = Some (Next out (set_turn g' 1)) /\
    announced out = [] /\
    (players_turn table_17_12 = 0 ->
     forall out0 input,
       main_loop 3 out0 table_17_12 input =
       main_loop 2 (out0 ++ out) (set_turn g' 1) input).
Proof.
  eexists _, _.
  apply (dealers_turn_hands_back 2 table_17_12);
    [reflexivity | vm_compute; reflexivity
     | vm_compute; discriminate | vm_compute; discriminate].
Defined.

(** C1 as stated fails: the player stands on 17, the dealer draws from 12
    to 19 (or to 17), and the program prints no verdict but asks the
    player again. *)
Lemma dealer_ahead_no_verdict :
  (exists out g,
      play 5 (stacked [4; 7; 4; 12; 7]%nat) blank_hand blank_hand ["s"]
      = Waiting out g /\
      player_score g = 17 /\ dealer_score g = 19 /\
      players_turn g = 1 /\ announced out = []) /\
  (exists out g,
      play 5 (stacked [4; 7; 4; 12; 9]%nat) blank_hand blank_hand ["s"]
      = Waiting out g /\
      player_score g = 17 /\ dealer_score g = 17 /\
      players_turn g = 1 /\ announced out = []).
Proof.
  split; eexists _, _; (split; [vm_compute; reflexivity|]);
    repeat split; reflexivity.
Qed.

(** ** Natural blackjacks *)

(** C7. The opening deal gives the first two cards of the deck to the
    player and the next two to the dealer.  If the player's two cards
    score 21 the program prints its verdict and returns at once, whatever
    the input holds and without a single pass of the loop: the player's
    blackjack when the dealer's two cards do not score 21, a push when
    they do. *)
Theorem natural_blackjack_ends_round (cards0 dealer0 player0 : list Card) :
  (4 <= length cards0)%nat ->
  (2 <= length dealer0)%nat ->
  (2 <= length player0)%nat ->
  total 0 (take 2 cards0) = 21 ->
  exists out g,
    (forall fuel input, play fuel cards0 dealer0 player0 input = Exit out g) /\
    hand (player g) (player_count g) = take 2 cards0 /\
    hand (dealer g) (dealer_count g) = take 2 (drop 2 cards0) /\
    card_count g = 4 /\
    player_score g = 21 /\
    dealer_score g = total 0 (take 2 (drop 2 cards0)) /\
    announced out = [if dealer_score g =? 21 then Push else PlayerBlackjack].
Proof.
  intros Hc Hd Hp H21.
  destruct (opening_deal cards0 dealer0 player0 Hc Hd Hp)
    as (player' & dealer' & first & _ & _ & Hhp & Hhd & Heq).
  cbn zeta in Heq. cbn [player_score dealer_score] in Heq.
  rewrite H21 in Heq. cbn [Z.eqb Pos.eqb] in Heq.
  unfold play. rewrite Heq.
  destruct (Z.eqb_spec (total 0 (take 2 (drop 2 cards0))) 21) as [Hd21|Hd21];
    cbn [negb]; eexists _, _; (split; [reflexivity|]);
    cbn [player player_count dealer dealer_count card_count player_score
         dealer_score];
    rewrite ?H21; repeat (split; [assumption || reflexivity|]).
  - rewrite Hd21. rewrite !announced_app. reflexivity.
  - apply Z.eqb_neq in Hd21. rewrite Hd21, !announced_app. reflexivity.
Qed.

Lemma natural_blackjack_ends_round_witness :
  exists out g,
    (forall fuel input,
        play fuel (stacked [0; 1; 5; 5]%nat) blank_hand blank_hand input
        = Exit out g) /\
    hand (player g) (player_count g) = take 2 (stacked [0; 1; 5; 5]%nat) /\
    hand (dealer g) (dealer_count g) =
    take 2 (drop 2 (stacked [0; 1; 5; 5]%nat)) /\
    card_count g = 4 /\
    player_score g = 21 /\
    dealer_score g = total 0 (take 2 (drop 2 (stacked [0; 1; 5; 5]%nat))) /\
    announced out = [if dealer_score g =? 21 then Push else PlayerBlackjack].
Proof.
  apply natural_blackjack_ends_round;
    [vm_compute; lia | vm_compute; lia | vm_compute; lia | reflexivity].
Defined.

(** The two openings of the spec: A, K against 9, 9 and against A, Q. *)
Example natural_blackjack_examples :
  (exists out g,
      play 0 (stacked [0; 1; 5; 5]%nat) blank_hand blank_hand [] = Exit out g /\
      player_score g = 21 /\ dealer_score g = 18 /\
      announced out = [PlayerBlackjack]) /\
  (exists out g,
      play 0 (stacked [0; 1; 0; 2]%nat) blank_hand blank_hand [] = Exit out g /\
      player_score g = 21 /\ dealer_score g = 21 /\
      announced out = [Push]).
Proof.
  split; eexists _, _; (split; [vm_compute; reflexivity|]);
    repeat split; reflexivity.
Qed.

(** The dealer's loop prints no verdict, however it ends. *)
Lemma dealer_draws_announced (fuel : nat) :
  forall (out : list event) (g : Game) (r : result (list event * Game)),
    dealer_draws fuel out g = Some r ->
    announced (state_of r).1 = announced out.
Proof.
  induction fuel as [|fuel IH]; intros out g r; cbn [dealer_draws];
    destruct (dealer_score g <? player_score g); try discriminate;
    try (intros [= <-]; reflexivity).
  destruct (giveCards _ _ _ _ _ 1) as [s|s].
  - intros ->%IH. rewrite !announced_app. cbn. by rewrite !app_nil_r.
  - intros [= <-]. cbn. rewrite announced_app. cbn. by rewrite app_nil_r.
Qed.

(** C8. When the dealer's branch is entered with the dealer at 21 on two
    cards, it prints the dealer's blackjack and breaks out of the loop at
    once: nothing is dealt (the state is unchanged, no fuel is needed),
    and the player's score plays no part, be it 21 itself.  The test is
    on the score and on the number of cards, both: the dealer's branch
    announces the dealer's blackjack in no other state, and a dealer who
    is at 21 on any other number of cards meets the ordinary test of 21,
    a push against a player at 21 and the dealer's win otherwise. *)
Theorem dealer_natural_blackjack (g : Game) :
  (dealer_score g = 21 ->
   dealer_count g = 2 ->
   let out := [printf DEALERS_TURN] ++ showCards (dealer g) 2 21 0
              ++ [printf "BLACKJACK! YOU LOOSE!"] in
   (forall fuel, dealers_turn fuel g = Some (Break out g)) /\
   announced out = [DealerBlackjack] /\
   (players_turn g = 0 ->
    forall fuel out0 input,
      main_loop (S fuel) out0 g input = Exit (out0 ++ out) g)) /\
  (forall fuel s,
      dealers_turn fuel g = Some s ->
      DealerBlackjack ∈ announced (output_of s) ->
      dealer_score g = 21 /\ dealer_count g = 2) /\
  (dealer_score g = 21 ->
   dealer_count g <> 2 ->
   player_score g <= 21 ->
   let out := [printf DEALERS_TURN] ++ showCards (dealer g) 2 21 0
              ++ [printf (if player_score g =? 21
                          then "PUSH!"%string else "YOU LOOSE!"%string)] in
   (forall fuel, dealers_turn fuel g = Some (Break out g)) /\
   announced out = [if player_score g =? 21 then Push else DealerWin]).
Proof.
  split; [|split].
  - intros Hs Hc out.
    assert (Hturn : forall fuel, dealers_turn fuel g = Some (Break out g)).
    { intros fuel. unfold dealers_turn. rewrite Hs, Hc.
      cbn [Z.eqb Pos.eqb andb]. subst out. by rewrite <- app_assoc. }
    split; [exact Hturn|]. split; [reflexivity|].
    intros H0 fuel out0 input. cbn [main_loop]. rewrite H0, Hturn.
    reflexivity.
  - intros fuel s. unfold dealers_turn.
    destruct (Z.eqb_spec (dealer_score g) 21) as [Hs|Hs];
      [destruct (Z.eqb_spec (dealer_count g) 2) as [Hc|Hc]|]; cbn [andb];
      [tauto| |].
    all: destruct (dealer_draws fuel _ g) as [r|] eqn:Hr; [|discriminate];
      apply dealer_draws_announced in Hr; cbn in Hr;
      destruct r as [[o1 g1]|[o1 g1]]; cbn [state_of fst] in Hr;
      [destruct (dealer_score g1 =? 21);
       [destruct (player_score g1 =? 21)|destruct (dealer_score g1 >? 21)]|];
      intros [= <-]; cbn [output_of];
      rewrite ?announced_app, Hr; cbn;
      intros Hin; repeat (apply elem_of_cons in Hin as [Hin|Hin];
                          [discriminate|]);
      by apply elem_of_nil in Hin.
  - intros Hs Hc Hp out.
    split; [|subst out; by destruct (player_score g =? 21)].
    intros fuel. unfold dealers_turn. rewrite Hs.
    destruct (Z.eqb_spec (dealer_count g) 2) as [|_]; [contradiction|].
    cbn [Z.eqb Pos.eqb andb].
    destruct fuel; cbn [dealer_draws]; rewrite Hs;
      (destruct (Z.ltb_spec 21 (player_score g)); [lia|]);
      rewrite Hs; cbn [Z.eqb Pos.eqb]; subst out;
      destruct (player_score g =? 21); by rewrite <- app_assoc.
Qed.

Lemma dealer_natural_blackjack_witness :
  (let out := [printf DEALERS_TURN] ++ showCards (dealer table_20_21) 2 21 0
              ++ [printf "BLACKJACK! YOU LOOSE!"] in
   (forall fuel,
       dealers_turn fuel table_20_21 = Some (Break out table_20_21)) /\
   announced out = [DealerBlackjack] /\
   (players_turn table_20_21 = 0 ->
    forall fuel out0 input,
      main_loop (S fuel) out0 table_20_21 input =
      Exit (out0 ++ out) table_20_21)) /\
  (let out := [printf DEALERS_TURN] ++ showCards (dealer table_17_21) 2 21 0
              ++ [printf "YOU LOOSE!"] in
   (forall fuel,
       dealers_turn fuel table_17_21 = Some (Break out table_17_21)) /\
   announced out = [DealerWin]).
Proof.
  split.
  - apply (proj1 (dealer_natural_blackjack table_20_21)); reflexivity.
  - apply (proj2 (proj2 (dealer_natural_blackjack table_17_21)));
      [reflexivity | discriminate | vm_compute; discriminate].
Defined.

(** The dealer's A, Q beats a player standing on 20, and a player who
    reached 21 by hitting (10, 5, then 6). *)
Example dealer_blackjack_examples :
  (exists out g,
      play 5 (stacked [4; 1; 0; 2]%nat) blank_hand blank_hand ["s"]
      = Exit out g /\
      player_score g = 20 /\ dealer_count g = 2 /\ card_count g = 4 /\
      announced out = [DealerBlackjack]) /\
  (exists out g,
      play 5 (stacked [4; 9; 0; 2; 8]%nat) blank_hand blank_hand ["h"]
      = Exit out g /\
      player_score g = 21 /\ dealer_count g = 2 /\ card_count g = 5 /\
      announced out = [DealerBlackjack]).
Proof.
  split; eexists _, _; (split; [vm_compute; reflexivity|]);
    repeat split; reflexivity.
Qed.

(** ** The player's turn *)

(** A word that fits [option]: "h" deals one card to the player and then
    goes by the new score, "s" hands over to the dealer, any other word
    changes nothing; the prompt is printed each time. *)
Lemma players_turn_branch_fits (cards0 dealer0 player0 : list Card)
      (g : Game) (option : string) :
  round_ok cards0 dealer0 player0 ->
  reachable cards0 dealer0 player0 g ->
  players_turn g <> 0 ->
  Z.of_nat (String.length option) < OPTION_INPUT_LENGTH ->
  let prompt := [printf HIT_OR_STAND] in
  (option = "h"%string ->
   exists c player',
     index (cards g) (card_count g) = Some c /\
     hand player' (player_count g + 1) =
     hand (player g) (player_count g) ++ [c] /\
     let g' := mkGame (cards g) (dealer g) player' (dealer_count g)
                      (player_count g + 1) (dealer_score g)
                      (player_score g + gain (player_score g) c)
                      (card_count g + 1) (players_turn g) in
     let out := prompt ++ showCards player' (player_count g')
                                    (player_score g') 1 in
     players_turn_branch g option =
     if player_score g' =? 21 then Next out (set_turn g' 0)
     else if player_score g' >? 21
          then Break (out ++ [printf "BUST! YOU LOOSE!"]) g'
          else Next out g') /\
  (option = "s"%string ->
   players_turn_branch g option = Next prompt (set_turn g 0)) /\
  (option <> "h"%string -> option <> "s"%string ->
   players_turn_branch g option = Next prompt g).
Proof.
  intros Hround Hreach Hnz Hlen prompt.
  pose proof (reachable_table_ok _ _ _ _ Hround Hreach) as (Hok & Hds & Hps).
  specialize (Hps Hnz). unfold players_turn_branch.
  destruct (Z.leb_spec OPTION_INPUT_LENGTH (Z.of_nat (String.length option)));
    [lia|].
  split; [|split].
  - intros ->. cbn [String.eqb Ascii.eqb Bool.eqb].
    unfold counts_ok, DECK_SIZE in Hok.
    destruct Hok as (Hc & Hp & Hd & Hpl & Hcc & Hpc & Hdc & _).
    destruct (index_in_range (cards g) (card_count g)) as [c Hcard]; [lia|].
    exists c, (store (player g) (player_count g) c).
    split; [exact Hcard|]. split; [apply hand_store; lia|].
    rewrite giveCards_one, (giveCards_body_Done _ _ _ _ _ c) by (auto; lia).
    reflexivity.
  - intros ->. reflexivity.
  - intros Hh Hs. apply String.eqb_neq in Hh, Hs. by rewrite Hh, Hs.
Qed.

(** A word of [OPTION_INPUT_LENGTH] characters or more does not fit
    [option]: [scanf] writes past the end of the array. *)
Lemma players_turn_branch_overflow (g : Game) (option : string) :
  OPTION_INPUT_LENGTH <= Z.of_nat (String.length option) ->
  players_turn_branch g option = Crash [printf HIT_OR_STAND] g.
Proof.
  intros H. unfold players_turn_branch.
  destruct (Z.leb_spec OPTION_INPUT_LENGTH (Z.of_nat (String.length option)));
    [reflexivity | lia].
Qed.

(** C9 on a word of 27 characters: it is neither "h" nor "s", yet the
    round does not go on to another prompt; [scanf] has overrun the 20
    bytes of [option]. *)
Theorem long_word_overruns_option :
  long_word <> "h"%string /\ long_word <> "s"%string /\
  Z.of_nat (String.length long_word) = 27 /\
  exists out out' g,
    reachable (stacked [4; 7; 4; 12; 7]%nat) blank_hand blank_hand g /\
    players_turn g = 1 /\
    players_turn_branch g long_word = Crash out g /\
    play 5 (stacked [4; 7; 4; 12; 7]%nat) blank_hand blank_hand
         [long_word; "s"%string] = Undefined out' g.
Proof.
  split; [discriminate|]. split; [discriminate|]. split; [reflexivity|].
  eexists _, _, (game_of (opening (stacked [4; 7; 4; 12; 7]%nat)
                               blank_hand blank_hand)).
  split; [|split; [reflexivity | split; vm_compute; reflexivity]].
  eapply reach_opening. vm_compute. reflexivity.
Qed.

(** The bust of the spec: K, Q and then a 5 make 25, and the round ends
    there, whatever input is left. *)
Example player_bust_example :
  exists out g,
    play 5 (stacked [1; 2; 3; 4; 9]%nat) blank_hand blank_hand ["h"; "h"; "s"]
    = Exit out g /\
    player_score g = 25 /\ player_count g = 3 /\
    announced out = [PlayerBust].
Proof.
  eexists _, _. split; [vm_compute; reflexivity|]. repeat split; reflexivity.
Qed.

(** * Further properties of the code *)

(** ** giveCards, whatever the arguments *)

Lemma total_snoc (score : Z) (dealt : list Card) (c : Card) :
  total score (dealt ++ [c]) =
  total score dealt + gain (total score dealt) c.
Proof. unfold total. by rewrite foldl_app. Qed.

Lemma total_cons (score : Z) (dealt : list Card) (c : Card) :
  total score (c :: dealt) = total (score + gain score c) dealt.
Proof. reflexivity. Qed.

(** Where [giveCards_loop] stops after [k] cards, and why. *)
Lemma giveCards_loop_state (n : nat) :
  forall (cards receiver : list Card) (card_count receiver_count score : Z),
  exists (k : nat) (receiver' : list Card),
    let dealt := take k (drop (Z.to_nat card_count) cards) in
    let r := giveCards_loop n cards receiver card_count receiver_count score in
    (k <= n)%nat /\
    state_of r = (receiver', card_count + Z.of_nat k,
                  receiver_count + Z.of_nat k, total score dealt) /\
    (is_done r = true <-> k = n) /\
    length dealt = k /\
    length receiver' = length receiver /\
    hand receiver' (receiver_count + Z.of_nat k) =
    hand receiver receiver_count ++ dealt /\
    ((0 < k)%nat -> 0 <= card_count /\ 0 <= receiver_count /\
                    receiver_count + Z.of_nat k <= Z.of_nat (length receiver)).
Proof.
  induction n as [|n IH]; intros cards receiver cc rc score.
  - exists 0%nat, receiver. cbn. rewrite !Z.add_0_r, app_nil_r.
    repeat split; auto; lia.
  - cbn [giveCards_loop]. unfold giveCards_body.
    destruct (index cards cc) as [c|] eqn:Hc;
      [destruct (index receiver rc) as [x|] eqn:Hx|].
    + destruct (IH cards (store receiver rc c) (cc + 1) (rc + 1)
                  (if points_ c =? 11
                   then score + (if score >? 10 then 1 else 11)
                   else score + points_ c))
        as (k & receiver' & Hk & Hst & Hdone & Hlen & Hlr & Hh & Hpos).
      cbn zeta in *.
      pose proof (index_Some_range _ _ _ Hc) as Hcr.
      pose proof (index_Some_range _ _ _ Hx) as Hrr.
      apply index_Some in Hc as [_ Hc].
      exists (S k), receiver'.
      replace (Z.to_nat (cc + 1)) with (S (Z.to_nat cc)) in * by lia.
      rewrite (drop_S _ c (Z.to_nat cc)) by exact Hc. cbn [take].
      rewrite total_cons.
      replace (score + gain score c)
        with (if points_ c =? 11
              then score + (if score >? 10 then 1 else 11)
              else score + points_ c)
        by (unfold gain; destruct (points_ c =? 11); reflexivity).
      replace (cc + Z.of_nat (S k)) with (cc + 1 + Z.of_nat k) by lia.
      replace (rc + Z.of_nat (S k)) with (rc + 1 + Z.of_nat k) by lia.
      rewrite length_store in Hlr, Hpos.
      split; [lia|]. split; [exact Hst|]. split; [rewrite Hdone; lia|].
      split; [cbn [length]; lia|]. split; [exact Hlr|]. split.
      * rewrite Hh, hand_store by lia. by rewrite <- app_assoc.
      * intros _. split; [lia|]. split; [lia|].
        destruct k; [lia|]. destruct Hpos as (_ & _ & Hroom); lia.
    + exists 0%nat, receiver. cbn. rewrite !Z.add_0_r, app_nil_r.
      repeat split; auto; try lia; discriminate.
    + exists 0%nat, receiver. cbn. rewrite !Z.add_0_r, app_nil_r.
      repeat split; auto; try lia; discriminate.
Qed.

(** What a call of [giveCards] comes to in the model, where the
    integers have no bounds. *)
Lemma giveCards_dealt (cards receiver : list Card)
      (card_count receiver_count score amount : Z) :
  exists (k : nat) (receiver' : list Card),
    let dealt := take k (drop (Z.to_nat card_count) cards) in
    let r := giveCards cards receiver card_count receiver_count score amount in
    state_of r = (receiver', card_count + Z.of_nat k,
                  receiver_count + Z.of_nat k, total score dealt) /\
    (is_done r = true <-> Z.of_nat k = Z.max 0 amount) /\
    Z.of_nat k <= Z.max 0 amount /\
    length dealt = k /\
    length receiver' = length receiver /\
    hand receiver' (receiver_count + Z.of_nat k) =
    hand receiver receiver_count ++ dealt /\
    (0 <= card_count -> 0 <= receiver_count ->
     card_count + amount <= Z.of_nat (length cards) ->
     receiver_count + amount <= Z.of_nat (length receiver) ->
     is_done r = true).
Proof.
  destruct (giveCards_loop_state (Z.to_nat amount) cards receiver card_count
              receiver_count score)
    as (k & receiver' & Hk & Hst & Hdone & Hlen & Hlr & Hh & _).
  exists k, receiver'. cbn zeta in *. unfold giveCards.
  split; [exact Hst|]. split; [rewrite Hdone; lia|]. split; [lia|].
  split; [exact Hlen|]. split; [exact Hlr|]. split; [exact Hh|].
  intros Hcc Hrc Hdeck Hroom.
  destruct (Z.le_gt_cases amount 0) as [Hle|Hgt].
  - replace (Z.to_nat amount) with 0%nat by lia. reflexivity.
  - destruct (giveCards_loop_Done (Z.to_nat amount) cards receiver card_count
                receiver_count score) as (r' & -> & _); try lia.
    reflexivity.
Qed.

(** The score after any number of the cards is one of the running
    scores. *)
Lemma total_in_running (dealt : list Card) :
  forall (score : Z) (k : nat),
    total score (take k dealt) ∈ running score dealt.
Proof.
  induction dealt as [|c dealt IH]; intros score [|k]; cbn [take running];
    try apply list_elem_of_here.
  rewrite total_cons. apply list_elem_of_further, IH.
Qed.

(** X1. What a call of [giveCards] does, for a deck and a hand array
    that do not overlap and all arguments with which no [int] of the
    call overflows ([giveCards_in_range]: the counters are not counted
    past [INT_MAX] and every score on the way is in the range of
    [int]): it deals some number [k] of cards, at most
    [amount]; both counters have moved by [k], the [k] next cards of the
    deck have been appended to the hand in deck order, the score is the
    running score over them and the hand array keeps its length; the
    counters and the score it leaves are in the range of [int].  It ends
    normally exactly when [k] is [amount] (nothing is dealt for an
    [amount] below 1), which is always so when the deck holds that many
    cards and the array has room for them. *)
Theorem giveCards_contract (cards receiver : list Card)
        (card_count receiver_count score amount : Z) :
  giveCards_in_range cards card_count receiver_count score amount ->
  exists (k : nat) (receiver' : list Card),
    let dealt := take k (drop (Z.to_nat card_count) cards) in
    let r := giveCards cards receiver card_count receiver_count score amount in
    state_of r = (receiver', card_count + Z.of_nat k,
                  receiver_count + Z.of_nat k, total score dealt) /\
    (is_done r = true <-> Z.of_nat k = Z.max 0 amount) /\
    Z.of_nat k <= Z.max 0 amount /\
    length dealt = k /\
    length receiver' = length receiver /\
    hand receiver' (receiver_count + Z.of_nat k) =
    hand receiver receiver_count ++ dealt /\
    (0 <= card_count -> 0 <= receiver_count ->
     card_count + amount <= Z.of_nat (length cards) ->
     receiver_count + amount <= Z.of_nat (length receiver) ->
     is_done r = true) /\
    int_range (card_count + Z.of_nat k) /\
    int_range (receiver_count + Z.of_nat k) /\
    int_range (total score dealt).
Proof.
  intros (Ha & Hcc & Hcc' & Hrc & Hrc' & _ & Hrun).
  destruct (giveCards_dealt cards receiver card_count receiver_count score
              amount)
    as (k & receiver' & Hst & Hdone & Hk & Hlen & Hlr & Hh & Hfine).
  exists k, receiver'. cbn zeta in *.
  repeat (split; [assumption|]).
  unfold int_range in *. split; [lia|]. split; [lia|].
  replace (take k (drop (Z.to_nat card_count) cards))
    with (take k (take (Z.to_nat amount) (drop (Z.to_nat card_count) cards)))
    by (rewrite take_take; f_equal; lia).
  apply (proj1 (Forall_forall _ _) Hrun), total_in_running.
Qed.

Lemma giveCards_contract_witness :
  exists (k : nat) (receiver' : list Card),
    let dealt := take k (drop (Z.to_nat 50) sample_deck) in
    let r := giveCards sample_deck blank_hand 50 3 2147483640 3 in
    state_of r = (receiver', 50 + Z.of_nat k, 3 + Z.of_nat k,
                  total 2147483640 dealt) /\
    (is_done r = true <-> Z.of_nat k = Z.max 0 3) /\
    Z.of_nat k <= Z.max 0 3 /\
    length dealt = k /\
    length receiver' = length blank_hand /\
    hand receiver' (3 + Z.of_nat k) = hand blank_hand 3 ++ dealt /\
    (0 <= 50 -> 0 <= 3 ->
     50 + 3 <= Z.of_nat (length sample_deck) ->
     3 + 3 <= Z.of_nat (length blank_hand) ->
     is_done r = true) /\
    int_range (50 + Z.of_nat k) /\
    int_range (3 + Z.of_nat k) /\
    int_range (total 2147483640 dealt).
Proof.
  apply giveCards_contract.
  unfold giveCards_in_range, int_range. repeat split; compute_done.
Defined.

(** X2. Dealing [a + b] cards is dealing [a] cards and then [b] more
    from where the first deal stopped; a first deal that runs off an
    array is where the whole deal stops. *)
Theorem giveCards_split (cards receiver : list Card)
        (card_count receiver_count score a b : Z) :
  0 <= a -> 0 <= b ->
  giveCards cards receiver card_count receiver_count score (a + b) =
  match giveCards cards receiver card_count receiver_count score a with
  | Done (receiver', card_count', receiver_count', score') =>
      giveCards cards receiver' card_count' receiver_count' score' b
  | OutOfBounds s => OutOfBounds s
  end.
Proof.
  intros Ha Hb. unfold giveCards. rewrite Z2Nat.inj_add by assumption.
  apply giveCards_loop_app.
Qed.

Lemma giveCards_split_witness :
  giveCards sample_deck blank_hand 3 0 0 (2 + 1) =
  match giveCards sample_deck blank_hand 3 0 0 2 with
  | Done (receiver', card_count', receiver_count', score') =>
      giveCards sample_deck receiver' card_count' receiver_count' score' 1
  | OutOfBounds s => OutOfBounds s
  end.
Proof. apply giveCards_split; lia. Defined.

(** ** FisherYates, beyond a full deck *)

Section ShuffleMore.
Context {rand_state : Type}.
Variable srand : Z -> rand_state.
Variable rand : rand_state -> Z * rand_state.

(** The loop started at index [n] leaves everything above [n] alone and
    permutes what is at [0..n]. *)
Lemma FisherYates_loop_prefix (n : nat) :
  rand_nonneg rand ->
  forall (deck deck' : list Card) (g g' : rand_state),
    (n < length deck)%nat ->
    FisherYates_loop rand n deck g = Done (deck', g') ->
    drop (S n) deck' = drop (S n) deck /\
    take (S n) deck' ≡ₚ take (S n) deck.
Proof.
  intros Hr. induction n as [|n IH]; intros deck deck' g g' Hn.
  - intros [= <- <-]. split; reflexivity.
  - cbn [FisherYates_loop].
    destruct (FisherYates_body_Done rand (Z.of_nat (S n)) deck g Hr)
      as (tmp & other & Htmp & Ho & ->); [lia|].
    pose proof (swap_index_range rand g (Z.of_nat (S n)) Hr) as Hj.
    set (j := Z.rem (rand g).1 (Z.of_nat (S n) + 1)) in *.
    set (deck1 := store (store deck (Z.of_nat (S n)) other) j tmp).
    intros Hloop. apply IH in Hloop as [Hd Ht];
      [|subst deck1; rewrite !length_store; lia].
    assert (Hd1 : drop (S (S n)) deck1 = drop (S (S n)) deck).
    { subst deck1. unfold store. rewrite !drop_insert_lt by lia. reflexivity. }
    assert (Ht1 : take (S (S n)) deck1 ≡ₚ take (S (S n)) deck).
    { subst deck1. unfold store. rewrite !take_insert_lt by lia.
      apply index_Some in Htmp as [_ Htmp]. apply index_Some in Ho as [_ Ho].
      apply Permutation_insert_swap; rewrite lookup_take_lt by lia;
        assumption. }
    assert (Hd' : drop (S (S n)) deck' = drop (S (S n)) deck).
    { rewrite <- Hd1. replace (S (S n)) with (S n + 1)%nat by lia.
      rewrite <- !drop_drop. by rewrite Hd. }
    split; [exact Hd'|]. rewrite <- Ht1.
    replace (S (S n)) with (S n + 1)%nat by lia.
    rewrite <- !take_take_drop. rewrite Hd. by rewrite Ht.
Qed.
End ShuffleMore.

(** X3. The shuffle moves cards by their positions, never by what they
    are: relabelling every card and then shuffling gives the shuffled
    deck relabelled, with the same generator state, and fails on the
    same inputs. *)
Theorem FisherYates_relabel {rand_state : Type}
        (srand : Z -> rand_state) (rand : rand_state -> Z * rand_state)
        (f : Card -> Card) (g0 : rand_state) (deck : list Card)
        (size seed : Z) :
  FisherYates srand rand g0 (f <$> deck) size seed =
  match FisherYates srand rand g0 deck size seed with
  | Done (deck', g') => Done (f <$> deck', g')
  | OutOfBounds (deck', g') => OutOfBounds (f <$> deck', g')
  end.
Proof. unfold FisherYates. apply FisherYates_loop_fmap. Qed.

(** X4. When [FisherYates] runs to its end, for a [size] above
    [INT_MIN], so that [size - 1] is an [int]: exactly when [size] is at
    most 1 (nothing is swapped, the deck comes back as it was) or at most
    the length of the array.  Otherwise the first pass of the loop
    already indexes past the array, no card having moved. *)
Theorem FisherYates_bounds {rand_state : Type}
        (srand : Z -> rand_state) (rand : rand_state -> Z * rand_state)
        (g0 : rand_state) (deck : list Card) (size seed : Z) :
  rand_nonneg rand ->
  INT_MIN < size <= INT_MAX ->
  (size <= 1 ->
   FisherYates srand rand g0 deck size seed = Done (deck, srand seed)) /\
  (1 < size -> Z.of_nat (length deck) < size ->
   FisherYates srand rand g0 deck size seed =
   OutOfBounds (deck, (rand (srand seed)).2)) /\
  (is_done (FisherYates srand rand g0 deck size seed) = true <->
   size <= 1 \/ size <= Z.of_nat (length deck)).
Proof.
  intros Hr _.
  assert (H1 : size <= 1 ->
               FisherYates srand rand g0 deck size seed =
               Done (deck, srand seed)).
  { intros Hs. unfold FisherYates.
    replace (Z.to_nat (size - 1)) with 0%nat by lia. reflexivity. }
  assert (H2 : 1 < size -> Z.of_nat (length deck) < size ->
               FisherYates srand rand g0 deck size seed =
               OutOfBounds (deck, (rand (srand seed)).2)).
  { intros Hs Hlen. unfold FisherYates.
    destruct (Z.to_nat (size - 1)) as [|n] eqn:Hn; [lia|].
    cbn [FisherYates_loop]. unfold FisherYates_body.
    destruct (rand (srand seed)) as [r g']. cbn [snd].
    rewrite (index_None deck (Z.of_nat (S n))) by lia. reflexivity. }
  split; [exact H1|]. split; [exact H2|]. split.
  - intros Hdone. destruct (Z.le_gt_cases size 1) as [|Hs]; [by left|].
    destruct (Z.le_gt_cases size (Z.of_nat (length deck))) as [|Hlen];
      [by right|].
    rewrite H2 in Hdone by lia. discriminate.
  - intros [Hs|Hs]; [by rewrite H1|].
    destruct (FisherYates_loop_Permutation rand (Z.to_nat (size - 1)) Hr deck
                (srand seed)) as (deck' & g' & Hl & _); [lia|].
    unfold FisherYates. by rewrite Hl.
Qed.

Lemma FisherYates_bounds_witness :
  (53 <= 1 ->
   FisherYates iso_srand iso_rand 0 sample_deck 53 7 =
   Done (sample_deck, iso_srand 7)) /\
  (1 < 53 -> Z.of_nat (length sample_deck) < 53 ->
   FisherYates iso_srand iso_rand 0 sample_deck 53 7 =
   OutOfBounds (sample_deck, (iso_rand (iso_srand 7)).2)) /\
  (is_done (FisherYates iso_srand iso_rand 0 sample_deck 53 7) = true <->
   53 <= 1 \/ 53 <= Z.of_nat (length sample_deck)).
Proof.
  apply FisherYates_bounds; [exact iso_rand_nonneg | compute_done].
Defined.

(** X5. Called with a [size] below the length of the array, the shuffle
    is a shuffle of the first [size] cards only: they are permuted among
    themselves and every card from position [size] on stays where it
    was. *)
Theorem FisherYates_prefix_only {rand_state : Type}
        (srand : Z -> rand_state) (rand : rand_state -> Z * rand_state)
        (g0 : rand_state) (deck : list Card) (size seed : Z) :
  rand_nonneg rand ->
  0 <= size <= Z.of_nat (length deck) ->
  exists deck' g',
    FisherYates srand rand g0 deck size seed = Done (deck', g') /\
    drop (Z.to_nat size) deck' = drop (Z.to_nat size) deck /\
    take (Z.to_nat size) deck' ≡ₚ take (Z.to_nat size) deck.
Proof.
  intros Hr Hsize.
  destruct (FisherYates_loop_Permutation rand (Z.to_nat (size - 1)) Hr deck
              (srand seed)) as (deck' & g' & Hl & _); [lia|].
  exists deck', g'. unfold FisherYates. split; [exact Hl|].
  destruct (Z.le_gt_cases size 1) as [Hs|Hs].
  - replace (Z.to_nat (size - 1)) with 0%nat in Hl by lia.
    injection Hl as <- <-. split; reflexivity.
  - replace (Z.to_nat size) with (S (Z.to_nat (size - 1))) by lia.
    eapply FisherYates_loop_prefix; [exact Hr | lia | exact Hl].
Qed.

Lemma FisherYates_prefix_only_witness :
  exists deck' g',
    FisherYates iso_srand iso_rand 0 sample_deck 10 3 = Done (deck', g') /\
    drop (Z.to_nat 10) deck' = drop (Z.to_nat 10) sample_deck /\
    take (Z.to_nat 10) deck' ≡ₚ take (Z.to_nat 10) sample_deck.
Proof.
  apply FisherYates_prefix_only;
    [exact iso_rand_nonneg | vm_compute; split; discriminate].
Defined.

(** ** What a round keeps true of the hands *)

Lemma total_app (score : Z) (l1 l2 : list Card) :
  total score (l1 ++ l2) = total (total score l1) l2.
Proof. unfold total. apply foldl_app. Qed.

Lemma take_dealt (cards : list Card) (card_count : Z) (k : nat) :
  ((0 < k)%nat -> 0 <= card_count) ->
  take (Z.to_nat (card_count + Z.of_nat k)) cards =
  take (Z.to_nat card_count) cards
  ++ take k (drop (Z.to_nat card_count) cards).
Proof.
  intros Hpos. destruct k as [|k].
  - rewrite Z.add_0_r. cbn [take]. by rewrite app_nil_r.
  - rewrite take_take_drop. f_equal. lia.
Qed.

Lemma deal_to_player_hands_ok (g : Game) (n : nat) :
  hands_ok g ->
  let g' := deal_to_player g
              (state_of (giveCards_loop n (cards g) (player g) (card_count g)
                                        (player_count g) (player_score g))) in
  hands_ok g' /\ cards g' = cards g.
Proof.
  intros (Hp & Hps & Hds).
  destruct (giveCards_loop_state n (cards g) (player g) (card_count g)
              (player_count g) (player_score g))
    as (k & player' & _ & -> & _ & _ & _ & Hh & Hpos).
  cbn zeta in *. unfold hands_ok. cbn. split; [|reflexivity].
  rewrite Hh, take_dealt by (intros Hk; apply Hpos in Hk; tauto).
  rewrite <- Hp, Hps, total_app. split; [|split; [reflexivity | exact Hds]].
  rewrite <- !app_assoc. f_equiv. apply Permutation_app_comm.
Qed.

Lemma deal_to_dealer_hands_ok (g : Game) (n : nat) :
  hands_ok g ->
  let g' := deal_to_dealer g
              (state_of (giveCards_loop n (cards g) (dealer g) (card_count g)
                                        (dealer_count g) (dealer_score g))) in
  hands_ok g' /\ cards g' = cards g.
Proof.
  intros (Hp & Hps & Hds).
  destruct (giveCards_loop_state n (cards g) (dealer g) (card_count g)
              (dealer_count g) (dealer_score g))
    as (k & dealer' & _ & -> & _ & _ & _ & Hh & Hpos).
  cbn zeta in *. unfold hands_ok. cbn. split; [|reflexivity].
  rewrite Hh, take_dealt by (intros Hk; apply Hpos in Hk; tauto).
  rewrite <- Hp, Hds, total_app. split; [|split; [exact Hps | reflexivity]].
  by rewrite app_assoc.
Qed.

Lemma set_turn_hands_ok (g : Game) (turn : Z) :
  hands_ok g -> hands_ok (set_turn g turn).
Proof. intros H. exact H. Qed.

Lemma opening_hands_ok (cards0 dealer0 player0 : list Card) :
  hands_ok (game_of (opening cards0 dealer0 player0)) /\
  cards (game_of (opening cards0 dealer0 player0)) = cards0.
Proof.
  set (g0 := mkGame cards0 dealer0 player0 0 0 0 0 0 0).
  assert (H0 : hands_ok g0) by (repeat split; reflexivity).
  pose proof (deal_to_player_hands_ok g0 2 H0) as Hp. cbn zeta in Hp.
  unfold opening, giveCards. change (Z.to_nat 2) with 2%nat. fold g0.
  change (giveCards_loop 2 cards0 player0 0 0 0)
    with (giveCards_loop 2 (cards g0) (player g0) (card_count g0)
                         (player_count g0) (player_score g0)).
  destruct (giveCards_loop 2 (cards g0) (player g0) (card_count g0)
                           (player_count g0) (player_score g0))
    as [s|s]; cbn [state_of] in Hp; [|exact Hp].
  set (g1 := deal_to_player g0 s) in *. destruct Hp as [Hp Hc].
  pose proof (deal_to_dealer_hands_ok g1 2 Hp) as Hd. cbn zeta in Hd.
  assert (Hg1 : giveCards_loop 2 cards0 dealer0 (card_count g1) 0 0 =
                giveCards_loop 2 (cards g1) (dealer g1) (card_count g1)
                               (dealer_count g1) (dealer_score g1)).
  { subst g1. destruct s as [[[? ?] ?] ?]. reflexivity. }
  rewrite Hg1.
  destruct (giveCards_loop 2 (cards g1) (dealer g1) (card_count g1)
                           (dealer_count g1) (dealer_score g1))
    as [s'|s']; cbn [state_of] in Hd; rewrite Hc in Hd; [|exact Hd].
  destruct (index _ 0); [|exact Hd].
  destruct (player_score _ =? 21); [destruct (negb _)|]; exact Hd.
Qed.

Lemma dealer_draws_hands_ok (fuel : nat) :
  forall (out : list event) (g : Game) (r : result (list event * Game)),
    hands_ok g ->
    dealer_draws fuel out g = Some r ->
    hands_ok (state_of r).2 /\ cards (state_of r).2 = cards g.
Proof.
  induction fuel as [|fuel IH]; intros out g r Hok; cbn [dealer_draws];
    destruct (dealer_score g <? player_score g); try discriminate;
    try (intros [= <-]; split; [exact Hok | reflexivity]).
  pose proof (deal_to_dealer_hands_ok g 1 Hok) as Hd. cbn zeta in Hd.
  unfold giveCards. change (Z.to_nat 1) with 1%nat.
  destruct (giveCards_loop 1 _ _ _ _ _) as [s|s]; cbn [state_of] in Hd.
  - intros Hr. apply IH in Hr; [|tauto]. destruct Hr as [? ->]. tauto.
  - intros [= <-]. exact Hd.
Qed.

Lemma dealers_turn_hands_ok (fuel : nat) (g : Game) (s : step) :
  hands_ok g ->
  dealers_turn fuel g = Some s ->
  hands_ok (game_of s) /\ cards (game_of s) = cards g.
Proof.
  intros Hok. unfold dealers_turn.
  destruct (_ && _); [intros [= <-]; split; [exact Hok | reflexivity]|].
  destruct (dealer_draws fuel _ g) as [r|] eqn:Hr; [|discriminate].
  apply dealer_draws_hands_ok in Hr; [|exact Hok].
  destruct r as [[out g']|[out g']]; cbn [state_of snd] in Hr.
  - destruct (dealer_score g' =? 21);
      [destruct (player_score g' =? 21)|destruct (dealer_score g' >? 21)];
      intros [= <-]; exact Hr.
  - intros [= <-]. exact Hr.
Qed.

Lemma players_turn_branch_hands_ok (g : Game) (option : string) :
  hands_ok g ->
  hands_ok (game_of (players_turn_branch g option)) /\
  cards (game_of (players_turn_branch g option)) = cards g.
Proof.
  intros Hok. unfold players_turn_branch.
  destruct (OPTION_INPUT_LENGTH <=? _); [split; [exact Hok | reflexivity]|].
  destruct (String.eqb option "h").
  - pose proof (deal_to_player_hands_ok g 1 Hok) as Hd. cbn zeta in Hd.
    unfold giveCards. change (Z.to_nat 1) with 1%nat.
    destruct (giveCards_loop 1 _ _ _ _ _) as [s|s]; cbn [state_of] in Hd;
      [|exact Hd].
    destruct (player_score _ =? 21); [exact Hd|].
    destruct (player_score _ >? 21); exact Hd.
  - destruct (String.eqb option "s"); split; (exact Hok || reflexivity).
Qed.

Lemma main_loop_hands_ok (fuel : nat) :
  forall (out : list event) (g : Game) (input : list string),
    hands_ok g ->
    hands_ok (game_of_run (main_loop fuel out g input)) /\
    cards (game_of_run (main_loop fuel out g input)) = cards g.
Proof.
  induction fuel as [|fuel IH]; intros out g input Hok;
    [split; [exact Hok | reflexivity]|].
  cbn [main_loop]. destruct (players_turn g =? 0).
  - destruct (dealers_turn (S fuel) g) as [s|] eqn:Hs;
      [|split; [exact Hok | reflexivity]].
    apply dealers_turn_hands_ok in Hs; [|exact Hok].
    destruct s as [o g'|o g'|o g']; cbn [game_of] in Hs; try exact Hs.
    destruct Hs as [Hok' <-]. by apply IH.
  - destruct input as [|option input]; [split; [exact Hok | reflexivity]|].
    pose proof (players_turn_branch_hands_ok g option Hok) as Hs.
    destruct (players_turn_branch g option) as [o g'|o g'|o g'];
      cbn [game_of] in Hs; try exact Hs.
    destruct Hs as [Hok' <-]. by apply IH.
Qed.

(** X6. However a run of the round ends, and whatever the deck, the hand
    arrays and the input were: the player's and the dealer's hands are
    together exactly the cards dealt so far, the first [card_count] cards
    of the deck, each of them in one hand only; each score is the running
    score of the cards of that hand in the order they came; and the deck
    is as it was after the shuffle. *)
Theorem hands_are_the_dealt_cards (fuel : nat)
        (cards0 dealer0 player0 : list Card) (input : list string) :
  let g := game_of_run (play fuel cards0 dealer0 player0 input) in
  hand (player g) (player_count g) ++ hand (dealer g) (dealer_count g)
  ≡ₚ take (Z.to_nat (card_count g)) cards0 /\
  player_score g = total 0 (hand (player g) (player_count g)) /\
  dealer_score g = total 0 (hand (dealer g) (dealer_count g)) /\
  cards g = cards0.
Proof.
  cbn zeta. unfold play.
  destruct (opening_hands_ok cards0 dealer0 player0) as [Hok Hc].
  destruct (opening cards0 dealer0 player0) as [out g|out g|out g];
    cbn [game_of game_of_run] in *.
  - destruct (main_loop_hands_ok fuel out g input Hok)
      as [(Hp & Hps & Hds) Hc'].
    rewrite Hc in Hc'. rewrite Hc' in Hp. tauto.
  - destruct Hok as (Hp & Hps & Hds). rewrite Hc in Hp. tauto.
  - destruct Hok as (Hp & Hps & Hds). rewrite Hc in Hp. tauto.
Qed.

(** ** Verdicts *)

Lemma opening_cases (cards0 dealer0 player0 : list Card) :
  round_ok cards0 dealer0 player0 ->
  match opening cards0 dealer0 player0 with
  | Next out g => announced out = [] /\ seated g
  | Break out g => exists v, announced out = [v] /\ verdict_ok v g
  | Crash _ _ => False
  end.
Proof.
  intros Hround. pose proof Hround as (Hc & Hok & Hd & Hp).
  unfold DECK_SIZE in *.
  destruct (opening_deal cards0 dealer0 player0)
    as (player' & dealer' & first & _ & _ & _ & _ & Heq); try lia.
  pose proof (opening_table_ok cards0 dealer0 player0) as Htable.
  rewrite Heq in *. clear Heq. cbn zeta in *.
  cbn [player_score dealer_score] in *.
  pose proof (total_two cards0 Hok) as Hps.
  destruct (Z.eqb_spec (total 0 (take 2 cards0)) 21) as [H21|H21].
  - destruct (Z.eqb_spec (total 0 (take 2 (drop 2 cards0))) 21) as [Hd21|Hd21];
      cbn [negb]; cbn beta iota.
    + exists Push. split; [reflexivity|]. cbn. tauto.
    + exists PlayerBlackjack. split; [reflexivity|]. cbn. tauto.
  - destruct (Htable _ _ Hround eq_refl) as (Ht & _ & _). cbn beta iota.
    split; [reflexivity|]. split; [exact Ht|]. cbn. lia.
Qed.

Lemma dealer_draws_dealer_count (fuel : nat) :
  forall (out out' : list event) (g g' : Game),
    dealer_draws fuel out g = Some (Done (out', g')) ->
    dealer_count g <= dealer_count g' /\
    (dealer_count g' = dealer_count g -> dealer_score g' = dealer_score g).
Proof.
  induction fuel as [|fuel IH]; intros out out' g g'; cbn [dealer_draws];
    destruct (dealer_score g <? player_score g); try discriminate;
    try (intros [= <- <-]; split; [lia | reflexivity]).
  destruct (giveCards _ _ _ _ _ 1) as [s|s] eqn:Hs; [|discriminate].
  apply giveCards_one_inv in Hs as (c & _ & _ & ->).
  intros [Hle _]%IH. cbn in Hle. lia.
Qed.

Lemma dealers_turn_cases (fuel : nat) (g : Game) :
  seated g ->
  match dealers_turn fuel g with
  | None => (fuel < 21)%nat
  | Some (Next out g') =>
      announced out = [] /\ seated g' /\ players_turn g' = 1
  | Some (Break out g') => exists v, announced out = [v] /\ verdict_ok v g'
  | Some (Crash _ _) => False
  end.
Proof.
  intros (Htable & Hpc & Hdc).
  destruct (dealers_turn fuel g) as [[out g'|out g'|out g']|] eqn:Hturn.
  - destruct (dealers_turn_table_ok _ _ _ _ Htable Hturn) as (Ht & H1 & Ha).
    split; [exact Ha|]. split; [|exact H1].
    split; [exact Ht|]. revert Hturn. unfold dealers_turn.
    destruct (_ && _); [discriminate|].
    destruct (dealer_draws fuel _ g) as [[[o1 g1]|[o1 g1]]|] eqn:Hr;
      try discriminate.
    destruct (dealer_draws_exit _ _ _ _ _ Hr) as (_ & _ & Hpc' & _).
    destruct (dealer_draws_dealer_count _ _ _ _ _ Hr) as (Hdc' & _).
    destruct (dealer_score g1 =? 21);
      [destruct (player_score g1 =? 21); discriminate|].
    destruct (dealer_score g1 >? 21); [discriminate|].
    intros [= <- <-]. cbn. lia.
  - destruct Htable as (Hok & Hds & _). revert Hturn. unfold dealers_turn.
    destruct (Z.eqb_spec (dealer_score g) 21) as [Hs|Hs];
      [destruct (Z.eqb_spec (dealer_count g) 2) as [Hc|Hc]|]; cbn [andb].
    1: { intros [= <- <-]. exists DealerBlackjack.
         split; [reflexivity|]. unfold counts_ok in Hok. cbn. lia. }
    all: destruct (dealer_draws fuel _ g) as [r|] eqn:Hr; [|discriminate];
      destruct (dealer_draws_counts_ok _ _ _ _ Hok Hr)
        as (o1 & g1 & -> & Hok1 & Hle & _ & _ & _ & Hps & Ha);
      destruct (dealer_draws_dealer_count _ _ _ _ _ Hr) as (Hdc' & Hsame);
      unfold counts_ok in Hok, Hok1;
      (destruct (Z.eqb_spec (dealer_score g1) 21) as [H21|H21];
       [destruct (Z.eqb_spec (player_score g1) 21) as [Hp21|Hp21]
       |destruct (Z.gtb_spec (dealer_score g1) 21) as [Hgt|Hgt]]);
      try discriminate; intros [= <- <-];
      [exists Push | exists DealerWin | exists PlayerWin];
      rewrite announced_app, Ha; (split; [reflexivity|]); cbn; lia.
  - revert Hturn. unfold dealers_turn. destruct (_ && _); [discriminate|].
    destruct Htable as (Hok & _).
    destruct (dealer_draws fuel _ g) as [r|] eqn:Hr; [|discriminate].
    destruct (dealer_draws_counts_ok _ _ _ _ Hok Hr) as (o1 & g1 & -> & _).
    destruct (dealer_score g1 =? 21);
      [destruct (player_score g1 =? 21)|destruct (dealer_score g1 >? 21)];
      discriminate.
  - destruct Htable as (Hok & _). revert Hturn. unfold dealers_turn.
    destruct (_ && _); [discriminate|].
    destruct (dealer_draws fuel _ g) as [r|] eqn:Hr.
    { destruct r as [[o1 g1]|[o1 g1]]; [|discriminate].
      destruct (dealer_score g1 =? 21);
        [destruct (player_score g1 =? 21)|destruct (dealer_score g1 >? 21)];
        discriminate. }
    intros _. destruct (Nat.lt_ge_cases fuel 21) as [|Hge]; [assumption|].
    unfold counts_ok in Hok.
    destruct (dealer_draws_terminates fuel
                ([printf DEALERS_TURN]
                 ++ showCards (dealer g) 2 (dealer_score g) 0) g)
      as (r & Hr' & _); [tauto | lia | congruence].
Qed.

Lemma players_turn_branch_cases (g : Game) (option : string) :
  seated g -> players_turn g <> 0 ->
  match players_turn_branch g option with
  | Next out g' => announced out = [] /\ seated g'
  | Break out g' => announced out = [PlayerBust] /\ verdict_ok PlayerBust g'
  | Crash _ _ => ~ fits option
  end.
Proof.
  intros (Htable & Hpc & Hdc) Hnz.
  pose proof Htable as (Hok & Hds & Hps). specialize (Hps Hnz).
  destruct (players_turn_branch g option) as [out g'|out g'|out g'] eqn:Hb.
  - split; [|split; [by eapply players_turn_branch_table_ok|]];
      revert Hb; unfold players_turn_branch;
      (destruct (OPTION_INPUT_LENGTH <=? _); [discriminate|]);
      (destruct (String.eqb option "h");
       [|destruct (String.eqb option "s"); intros [= <- <-];
         (reflexivity || (cbn; lia))]);
      (destruct (giveCards _ _ _ _ _ 1) as [s|s] eqn:Hs; [|discriminate]);
      apply giveCards_one_inv in Hs as (c & _ & _ & ->);
      cbn [deal_to_player player_score player_count player];
      (destruct (_ =? 21); [|destruct (_ >? 21); [discriminate|]]);
      intros [= <- <-]; (reflexivity || (cbn; lia)).
  - revert Hb. unfold players_turn_branch.
    destruct (OPTION_INPUT_LENGTH <=? _); [discriminate|].
    destruct (String.eqb option "h");
      [|destruct (String.eqb option "s"); discriminate].
    destruct (giveCards _ _ _ _ _ 1) as [s|s] eqn:Hs; [|discriminate].
    apply giveCards_one_inv in Hs as (c & _ & _ & ->).
    cbn [deal_to_player player_score player_count player].
    destruct (_ =? 21); [discriminate|].
    destruct (Z.gtb_spec (player_score g + gain (player_score g) c) 21);
      [|discriminate].
    intros [= <- <-]. split; [reflexivity|]. cbn. lia.
  - revert Hb. unfold players_turn_branch, fits.
    destruct (Z.leb_spec OPTION_INPUT_LENGTH (Z.of_nat (String.length option)));
      [intros _; lia|].
    destruct (String.eqb option "h");
      [|destruct (String.eqb option "s"); discriminate].
    unfold counts_ok, DECK_SIZE in Hok.
    destruct (giveCards_one_in_range (cards g) (player g) (card_count g)
                (player_count g) (player_score g)) as [s ->]; try lia.
    destruct (_ =? 21); [discriminate|]. destruct (_ >? 21); discriminate.
Qed.

(** Every way [main_loop] can end, from a state of a round. *)
Lemma main_loop_cases (fuel : nat) :
  forall (out : list event) (g : Game) (input : list string),
    seated g -> announced out = [] ->
    match main_loop fuel out g input with
    | Exit out' g' => exists v, announced out' = [v] /\ verdict_ok v g'
    | Waiting out' g' =>
        announced out' = [] /\ seated g' /\ players_turn g' <> 0
    | Undefined out' g' => ~ Forall fits input
    | NoFuel out' g' =>
        (fuel < 2 * length input
                + (if (players_turn g =? 0)%Z then 1 else 0) + 21)%nat
    end.
Proof.
  induction fuel as [|fuel IH]; intros out g input Hs Hout; [cbn; lia|].
  cbn [main_loop]. destruct (Z.eqb_spec (players_turn g) 0) as [H0|H0].
  - pose proof (dealers_turn_cases (S fuel) g Hs) as Hd.
    destruct (dealers_turn (S fuel) g) as [[o g'|o g'|o g']|]; cbn; try lia;
      try contradiction.
    + destruct Hd as (Ho & Hs' & H1).
      specialize (IH (out ++ o) g' input Hs').
      rewrite announced_app, Hout, Ho in IH. specialize (IH eq_refl).
      destruct (main_loop fuel (out ++ o) g' input); try exact IH.
      rewrite H1 in IH. cbn in IH. lia.
    + destruct Hd as (v & Ho & Hv). exists v.
      rewrite announced_app, Hout, Ho. split; [reflexivity | exact Hv].
  - destruct input as [|option input].
    + rewrite announced_app, Hout. split; [reflexivity|]. split; assumption.
    + pose proof (players_turn_branch_cases g option Hs H0) as Hp.
      destruct (players_turn_branch g option) as [o g'|o g'|o g'].
      * destruct Hp as (Ho & Hs').
        specialize (IH (out ++ o) g' input Hs').
        rewrite announced_app, Hout, Ho in IH. specialize (IH eq_refl).
        destruct (main_loop fuel (out ++ o) g' input); try exact IH.
        -- intros Hf. apply IH. by apply Forall_cons in Hf as [_ Hf].
        -- cbn [length]. destruct (players_turn g' =? 0); lia.
      * destruct Hp as (Ho & Hv). exists PlayerBust.
        rewrite announced_app, Hout, Ho. split; [reflexivity | exact Hv].
      * intros Hf. apply Hp. by apply Forall_cons in Hf as [Hf _].
Qed.


(** X8. On a legitimate deck the program returns only with a verdict, one
    verdict, and the verdict is what the final scores say: a bust is a
    score above 21, a push is 21 against 21, the dealer wins only on 21
    (on two cards by blackjack, on more otherwise) against a player below
    it.  While the program waits at the prompt no verdict has been
    printed and the player is at 20 or below. *)
Theorem verdict_matches_scores (fuel : nat)
        (cards0 dealer0 player0 : list Card) (input : list string) :
  round_ok cards0 dealer0 player0 ->
  match play fuel cards0 dealer0 player0 input with
  | Exit out g => exists v, announced out = [v] /\ verdict_ok v g
  | Waiting out g =>
      announced out = [] /\ player_score g <= 20 /\ dealer_score g <= 21
  | Undefined _ _ | NoFuel _ _ => True
  end.
Proof.
  intros Hround. unfold play.
  pose proof (opening_cases cards0 dealer0 player0 Hround) as Hopen.
  destruct (opening cards0 dealer0 player0) as [out g|out g|out g];
    [|exact Hopen|contradiction].
  destruct Hopen as (Hout & Hs).
  pose proof (main_loop_cases fuel out g input Hs Hout) as Hrun.
  destruct (main_loop fuel out g input) as [o g'|o g'|o g'|o g'];
    try exact Hrun; try exact I.
  destruct Hrun as (Ho & ((_ & Hds & Hps) & _) & Hnz). auto.
Qed.

Lemma verdict_matches_scores_witness :
  match play 27 sample_deck blank_hand blank_hand ["h"; "s"]%string with
  | Exit out g => exists v, announced out = [v] /\ verdict_ok v g
  | Waiting out g =>
      announced out = [] /\ player_score g <= 20 /\ dealer_score g <= 21
  | Undefined _ _ | NoFuel _ _ => True
  end.
Proof. apply verdict_matches_scores. exact sample_deck_ok. Defined.

(** ** Standing against a dealer who is not behind *)




(** ** The deck main builds *)

Lemma build_deck_bind (card_images : list string) (pts : list Z)
      (cards : list Card) :
  build_deck card_images pts cards =
  cards ++ (c ← zip_with mkCard card_images pts; replicate 4 c).
Proof.
  revert pts cards. induction card_images as [|image card_images IH];
    intros [|p pts] cards; cbn [build_deck zip_with];
    try (by rewrite app_nil_r).
  rewrite IH. unfold add_four. rewrite <- app_assoc. reflexivity.
Qed.

Lemma lookup_bind_replicate {A} (l : list A) (n k : nat) :
  (0 < n)%nat ->
  (c ← l; replicate n c) !! k = l !! (k / n)%nat.
Proof.
  intros Hn. revert k. induction l as [|x l IH]; intros k.
  - reflexivity.
  - rewrite bind_cons.
    destruct (Nat.lt_ge_cases k n) as [Hlt|Hge].
    + rewrite lookup_app_l by (rewrite length_replicate; lia).
      rewrite Nat.div_small by lia. cbn. apply lookup_replicate_2. lia.
    + rewrite lookup_app_r by (rewrite length_replicate; lia).
      rewrite length_replicate, IH.
      replace k with ((k - n) + 1 * n)%nat at 2 by lia.
      rewrite Nat.div_add by lia.
      replace (((k - n) / n + 1)%nat) with (S ((k - n) / n)) by lia.
      reflexivity.
Qed.

(** X10. The deck [main] builds from the thirteen images is the cards of
    the thirteen ranks in the order of the table, four of each one after
    the other: 52 cards, and the card at position [k] carries the image
    and the points of rank [k / 4]. *)
Theorem new_deck_layout (card_images : list string) :
  Z.of_nat (length card_images) = NUM_CARDS ->
  new_deck card_images =
  (c ← zip_with mkCard card_images points; replicate 4 c) /\
  Z.of_nat (length (new_deck card_images)) = DECK_SIZE /\
  forall k : nat,
    new_deck card_images !! k =
    match card_images !! (k / 4)%nat, points !! (k / 4)%nat with
    | Some image, Some p => Some (mkCard image p)
    | _, _ => None
    end.
Proof.
  unfold NUM_CARDS, DECK_SIZE. intros Hlen.
  assert (Heq : new_deck card_images =
                (c ← zip_with mkCard card_images points; replicate 4 c)).
  { unfold new_deck. by rewrite build_deck_bind. }
  split; [exact Heq|]. split.
  - unfold new_deck. rewrite build_deck_length.
    replace (length card_images) with 13%nat by lia. reflexivity.
  - intros k. rewrite Heq, lookup_bind_replicate by lia.
    rewrite lookup_zip_with.
    destruct (card_images !! (k / 4)%nat); [|reflexivity].
    destruct (points !! (k / 4)%nat); reflexivity.
Qed.

Lemma new_deck_layout_witness :
  new_deck sample_images =
  (c ← zip_with mkCard sample_images points; replicate 4 c) /\
  Z.of_nat (length (new_deck sample_images)) = DECK_SIZE /\
  forall k : nat,
    new_deck sample_images !! k =
    match sample_images !! (k / 4)%nat, points !! (k / 4)%nat with
    | Some image, Some p => Some (mkCard image p)
    | _, _ => None
    end.
Proof. apply new_deck_layout. reflexivity. Defined.

(** ** Loading the card images *)


Lemma string_app_nil_r (s : string) : s +:+ EmptyString = s.
Proof.
  induction s as [|a s IH]; [reflexivity|].
  change (String a (s +:+ EmptyString) = String a s). by rewrite IH.
Qed.



Section LoaderFacts.
Variable fopen : string -> option string.
Variable alloc : nat -> bool.

End LoaderFacts.

Lemma line_lengths_positive (content : string) :
  forall currlnlen x,
    0 <= currlnlen -> x ∈ line_lengths currlnlen content -> 1 <= x.
Proof.
  induction content as [|c content IH]; intros k x Hk; cbn [line_lengths].
  - by intros ?%elem_of_nil.
  - destruct (Ascii.eqb c LF).
    + intros [->|Hx]%elem_of_cons; [lia|]. eapply IH; [|exact Hx]. lia.
    + apply IH. lia.
Qed.



Section LoaderShape.
Variable fopen : string -> option string.
Variable alloc : nat -> bool.


End LoaderShape.





(** A file whose last line has no newline is accepted, the loose end in
    the image; so is an empty file; a ragged file is not. *)
Example read_chars_examples :
  read_chars (fun _ => true)
             ("ab" +:+ newline +:+ "cd" +:+ newline +:+ "xyz")
             EmptyString 0 0 (-1) 0 ALLOC_SIZE 0 =
  Loaded ("ab" +:+ newline +:+ "cd" +:+ newline +:+ "xyz", 9, 2, 3,
          ALLOC_SIZE, 0%nat) /\
  read_chars (fun _ => true) EmptyString EmptyString 0 0 (-1) 0
             ALLOC_SIZE 0 =
  Loaded (EmptyString, 0, 0, -1, ALLOC_SIZE, 0%nat) /\
  read_chars (fun _ => true) ("ab" +:+ newline +:+ "c" +:+ newline)
             EmptyString 0 0 (-1) 0 ALLOC_SIZE 0 = FileError.
Proof. repeat split; reflexivity. Qed.

Lemma index_drop {A} (l : list A) (i : Z) (x : A) :
  index l i = Some x ->
  drop (Z.to_nat i) l = x :: drop (Z.to_nat (i + 1)) l.
Proof.
  intros [Hi Hx]%index_Some.
  replace (Z.to_nat (i + 1)) with (S (Z.to_nat i)) by lia.
  by apply drop_S.
Qed.

Section LoaderLoop.
Variable fopen : string -> option string.
Variable alloc : nat -> bool.
Variable file_path : string.






End LoaderLoop.

Section LoaderWhole.
Variable fopen : string -> option string.
Variable alloc : nat -> bool.
Variable file_path : string.

End LoaderWhole.






(** The deck is refused when a file is missing. *)
Example load_cards_no_queen :
  load_cards fopen_no_queen (fun _ => true) "cards/" = FileError.
Proof. reflexivity. Qed.

(** ** showCards, character by character *)

Lemma string_app_assoc (s t u : string) : (s +:+ t) +:+ u = s +:+ t +:+ u.
Proof.
  induction s as [|a s IH]; [reflexivity|].
  change (String a ((s +:+ t) +:+ u) = String a (s +:+ t +:+ u)).
  by rewrite IH.
Qed.

Lemma string_app_cons (a : Ascii.ascii) (s t : string) :
  String a s +:+ t = String a (s +:+ t).
Proof. reflexivity. Qed.

Lemma line_lengths_split (s : string) :
  forall (k x : Z) (xs : list Z),
    line_lengths k s = x :: xs ->
    exists l s',
      s = l +:+ String LF s' /\
      x = k + Z.of_nat (String.length l) + 1 /\
      print_line s = Some l /\
      line_lengths 0 s' = xs.
Proof.
  induction s as [|c s IH]; intros k x xs; cbn [line_lengths print_line];
    [discriminate|].
  destruct (Ascii.eqb c LF) eqn:Hc.
  - apply Ascii.eqb_eq in Hc as ->. intros [= <- <-].
    exists EmptyString, s. cbn. repeat split; lia.
  - intros (l & s' & -> & -> & -> & <-)%IH.
    exists (String c l), s'. cbn [String.length fmap option_fmap option_map].
    rewrite string_app_cons. repeat split; lia.
Qed.

Lemma advance_app (l s : string) :
  advance (String.length l) (l +:+ s) = Some s.
Proof. induction l as [|a l IH]; [by destruct s | exact IH]. Qed.

Lemma advance_add (a b : nat) :
  forall s, advance (a + b) s = advance a s ≫= advance b.
Proof.
  induction a as [|a IH]; intros s; [reflexivity|].
  destruct s as [|c s]; [reflexivity | apply IH].
Qed.

Lemma substring_app_0 (l s : string) :
  String.substring 0 (String.length l) (l +:+ s) = l.
Proof.
  induction l as [|a l IH]; [by destruct s|].
  cbn [String.length]. rewrite string_app_cons. cbn [String.substring].
  by rewrite IH.
Qed.

Lemma substring_skip (l s : string) (m k : nat) :
  String.substring (String.length l + m) k (l +:+ s) = String.substring m k s.
Proof. induction l as [|a l IH]; [reflexivity | exact IH]. Qed.

(** Row [j] of a rectangular image, as [showCards] walks to it and
    through it. *)
Lemma rectangular_row (j : nat) :
  forall (img : string) (w : Z) (h : nat),
    line_lengths 0 img = replicate h w ->
    (j < h)%nat ->
    exists img_j,
      advance (j * Z.to_nat w) img = Some img_j /\
      print_line img_j =
      Some (String.substring (j * Z.to_nat w) (Z.to_nat w - 1) img).
Proof.
  induction j as [|j IH]; intros img w h Hl Hj;
    (destruct h as [|h]; [lia|]); cbn [replicate] in Hl;
    destruct (line_lengths_split _ _ _ _ Hl) as (l & s' & -> & Hw & Hp & Hl').
  - exists (l +:+ String LF s'). split; [reflexivity|].
    rewrite Hp. f_equal. cbn [Nat.mul].
    replace (Z.to_nat w - 1)%nat with (String.length l) by lia.
    symmetry. apply substring_app_0.
  - destruct (IH s' w h Hl') as (img_j & Ha & Hpj); [lia|].
    exists img_j.
    replace (S j * Z.to_nat w)%nat
      with (String.length (l +:+ String LF EmptyString) + j * Z.to_nat w)%nat.
    2: { assert (Hlen : forall t, String.length (t +:+ String LF EmptyString)
                                  = S (String.length t))
           by (induction t as [|a t IHt]; [reflexivity|];
               rewrite string_app_cons; cbn [String.length]; by rewrite IHt).
         rewrite Hlen. lia. }
    replace (l +:+ String LF s')
      with ((l +:+ String LF EmptyString) +:+ s')
      by (rewrite string_app_assoc; reflexivity).
    rewrite advance_add, advance_app, substring_skip. cbn. auto.
Qed.

Lemma foldr_app_tail (f : Card -> string) (hand : list Card) (t : string) :
  foldr (fun c acc => f c +:+ "  " +:+ acc) EmptyString hand +:+ t =
  foldr (fun c acc => f c +:+ "  " +:+ acc) t hand.
Proof.
  induction hand as [|c hand IH]; [reflexivity|].
  cbn [foldr]. rewrite !string_app_assoc. by rewrite IH.
Qed.

Lemma show_row_rectangular (n : nat) :
  forall (cards : list Card) (i offset : Z) (out : string)
         (j h : nat) (w : Z),
    0 <= i -> i + Z.of_nat n <= Z.of_nat (length cards) ->
    offset = Z.of_nat j * w -> (j < h)%nat ->
    Forall (fun c => line_lengths 0 (image_ c) = replicate h w)
           (take n (drop (Z.to_nat i) cards)) ->
    show_row n cards i offset out =
    Done (out +:+
          foldr (fun c acc =>
                   String.substring (j * Z.to_nat w) (Z.to_nat w - 1)
                                    (image_ c) +:+ "  " +:+ acc)
                EmptyString (take n (drop (Z.to_nat i) cards))).
Proof.
  induction n as [|n IH];
    intros cards i offset out j h w Hi Hn -> Hj Hall.
  - cbn. by rewrite string_app_nil_r.
  - destruct (index_in_range cards i) as [c Hc]; [lia|].
    rewrite (index_drop _ _ _ Hc) in Hall |- *. cbn [take] in Hall |- *.
    apply Forall_cons in Hall as [Hrect Hall].
    assert (Hw : 1 <= w).
    { destruct h as [|h]; [lia|]. cbn [replicate] in Hrect.
      apply (line_lengths_positive (image_ c) 0 w); [lia|].
      rewrite Hrect. by left. }
    cbn [show_row foldr]. rewrite Hc. unfold image_at.
    destruct (Z.leb_spec 0 (Z.of_nat j * w)); [|lia].
    destruct (rectangular_row j (image_ c) w h Hrect Hj) as (img & Ha & Hp).
    replace (Z.to_nat (Z.of_nat j * w)) with (j * Z.to_nat w)%nat by lia.
    rewrite Ha, Hp.
    rewrite (IH cards (i + 1) (Z.of_nat j * w) _ j h w);
      auto; try lia.
    by rewrite !string_app_assoc.
Qed.

Lemma show_rows_rectangular (m : nat) :
  forall (cards : list Card) (length width offset : Z) (out : string)
         (j h : nat),
    0 <= length <= Z.of_nat (List.length cards) ->
    offset = Z.of_nat j * width -> (j + m <= h)%nat ->
    Forall (fun c => line_lengths 0 (image_ c) = replicate h width)
           (hand cards length) ->
    show_rows m cards length width offset out =
    Done (out +:+
          foldr (fun j acc => picture_row width j (hand cards length) +:+ acc)
                EmptyString (seq j m)).
Proof.
  induction m as [|m IH];
    intros cards len width offset out j h Hlen -> Hj Hall.
  - cbn. by rewrite string_app_nil_r.
  - cbn [show_rows seq foldr].
    rewrite (show_row_rectangular (Z.to_nat len) cards 0 _ out j h width);
      auto; try lia.
    rewrite (IH cards len width _ _ (S j) h); auto; try lia.
    unfold picture_row, hand. change (Z.to_nat 0) with 0%nat.
    rewrite drop_0, !string_app_assoc. do 2 f_equal.
    rewrite <- string_app_assoc, foldr_app_tail. reflexivity.
Qed.

Lemma showCards_text_rectangular (cards : list Card)
        (length score width height player rows : Z) :
  0 <= length <= Z.of_nat (List.length cards) ->
  0 <= height <= rows ->
  Forall (fun c => rectangular width rows (image_ c)) (hand cards length) ->
  showCards_text cards length score width height player =
  Done ((if player =? 1
         then "YOUR CARDS:" +:+ newline +:+ newline
         else "DEALERS CARDS:" +:+ newline +:+ newline)
        +:+ RULE
        +:+ picture width (Z.to_nat height) (hand cards length)
        +:+ "score:" +:+ pretty score +:+ newline +:+ newline +:+ RULE).
Proof.
  intros Hlen Hheight Hrect. unfold showCards_text.
  rewrite (show_rows_rectangular (Z.to_nat height) cards length width 0 _ 0
             (Z.to_nat rows)); auto; try lia.
  - unfold picture. by rewrite !string_app_assoc.
  - eapply Forall_impl; [exact Hrect|]. intros c (Hl & _). exact Hl.
Qed.

(** X15. What [showCards] prints for cards whose images are rectangular,
    [width] characters to a line with the newline, when asked for no
    more rows than the images have and no more cards than the array
    holds: the heading, the rule, the picture of the hand row by row
    (row [j] of each card is the [width - 1] characters of its image from
    position [j * width] on, followed by two blanks), the score in
    decimal, and the rule again.  No character outside an image is
    read. *)
Theorem showCards_text_picture (cards : list Card)
        (length score width height player rows : Z) :
  0 <= length <= Z.of_nat (List.length cards) ->
  0 <= height <= rows ->
  Forall (fun c => rectangular width rows (image_ c)) (hand cards length) ->
  showCards_text cards length score width height player =
  Done ((if player =? 1
         then "YOUR CARDS:" +:+ newline +:+ newline
         else "DEALERS CARDS:" +:+ newline +:+ newline)
        +:+ RULE
        +:+ picture width (Z.to_nat height) (hand cards length)
        +:+ "score:" +:+ pretty score +:+ newline +:+ newline +:+ RULE).
Proof. apply showCards_text_rectangular. Qed.

Lemma showCards_text_picture_witness :
  showCards_text (new_deck sample_contents) 2 12 5 2 1 =
  Done ((if 1 =? 1
         then "YOUR CARDS:" +:+ newline +:+ newline
         else "DEALERS CARDS:" +:+ newline +:+ newline)
        +:+ RULE
        +:+ picture 5 (Z.to_nat 2) (hand (new_deck sample_contents) 2)
        +:+ "score:" +:+ pretty 12 +:+ newline +:+ newline +:+ RULE).
Proof.
  apply (showCards_text_picture _ _ _ _ _ _ 2);
    [vm_compute; split; discriminate | lia |].
  repeat (apply Forall_cons;
          split; [split; [reflexivity | split; [lia | discriminate]]|]).
  apply Forall_nil_2.
Defined.

(** Two aces as the program draws them, and an image one line short. *)
Example showCards_text_examples :
  showCards_text (new_deck sample_contents) 2 12 5 2 1 =
  Done ("YOUR CARDS:" +:+ newline +:+ newline +:+ RULE
        +:+ "[A ]  [A ]  " +:+ newline
        +:+ "[__]  [__]  " +:+ newline
        +:+ "score:12" +:+ newline +:+ newline +:+ RULE) /\
  is_done (showCards_text (new_deck sample_contents) 2 12 5 3 1) = false.
Proof. split; reflexivity. Qed.

(** ** What the round shows *)

Lemma shows_app (deck : list Card) (out1 out2 : list event) :
  shows_cards_of deck (out1 ++ out2) <->
  shows_cards_of deck out1 /\ shows_cards_of deck out2.
Proof. apply Forall_app. Qed.

Lemma shows_printf (deck : list Card) (s : string) :
  shows_cards_of deck [printf s].
Proof. by repeat constructor. Qed.

Lemma shows_showCards (deck cards : list Card) (len score who : Z) :
  hand cards len ⊆ deck ->
  shows_cards_of deck (showCards cards len score who).
Proof. intros H. by repeat constructor. Qed.

Lemma hand_subseteq (cards : list Card) (k n : Z) :
  k <= n -> hand cards k ⊆ hand cards n.
Proof.
  intros Hk. unfold hand.
  replace (take (Z.to_nat k) cards)
    with (take (Z.to_nat k) (take (Z.to_nat n) cards))
    by (rewrite take_take; f_equal; lia).
  apply subseteq_take.
Qed.

Lemma hands_of_deck (g : Game) :
  hands_ok g ->
  hand (player g) (player_count g) ⊆ cards g /\
  hand (dealer g) (dealer_count g) ⊆ cards g.
Proof.
  intros (Hp & _). split; intros x Hx.
  - apply (subseteq_take (Z.to_nat (card_count g))). rewrite <- Hp.
    apply elem_of_app. by left.
  - apply (subseteq_take (Z.to_nat (card_count g))). rewrite <- Hp.
    apply elem_of_app. by right.
Qed.

Lemma dealer_draws_shows (deck : list Card) (fuel : nat) :
  forall (out : list event) (g : Game) (r : result (list event * Game)),
    hands_ok g -> cards g = deck -> shows_cards_of deck out ->
    dealer_draws fuel out g = Some r ->
    shows_cards_of deck (state_of r).1 /\
    dealer_count g <= dealer_count (state_of r).2.
Proof.
  induction fuel as [|fuel IH]; intros out g r Hok Hdeck Hout;
    cbn [dealer_draws];
    destruct (dealer_score g <? player_score g); try discriminate;
    try (intros [= <-]; split; [exact Hout | reflexivity]).
  pose proof (deal_to_dealer_hands_ok g 1 Hok) as Hd. cbn zeta in Hd.
  destruct (giveCards _ _ _ _ _ 1) as [s|s] eqn:Hs.
  - unfold giveCards in Hs. change (Z.to_nat 1) with 1%nat in Hs.
    rewrite Hs in Hd. cbn [state_of] in Hd. destruct Hd as [Hok' Hc'].
    assert (Hcount : dealer_count g <= dealer_count (deal_to_dealer g s)).
    { fold (giveCards (cards g) (dealer g) (card_count g) (dealer_count g)
                      (dealer_score g) 1) in Hs.
      apply giveCards_one_inv in Hs as (c & _ & _ & ->). cbn. lia. }
    intros Hr. apply IH in Hr; [| exact Hok' | congruence |].
    + destruct Hr as [Hshow Hle]. split; [exact Hshow | lia].
    + apply shows_app. split; [apply shows_app; split;
                                [exact Hout | apply shows_printf]|].
      apply shows_showCards. rewrite <- Hdeck, <- Hc'.
      by apply hands_of_deck.
  - intros [= <-]. cbn. split; [|].
    + apply shows_app. split; [exact Hout | apply shows_printf].
    + unfold giveCards in Hs. change (Z.to_nat 1) with 1%nat in Hs.
      cbn [giveCards_loop] in Hs. unfold giveCards_body in Hs.
      destruct (index (cards g) (card_count g));
        [destruct (index (dealer g) (dealer_count g))|];
        try discriminate; injection Hs as <-; cbn; lia.
Qed.

Lemma dealers_turn_shows (deck : list Card) (fuel : nat) (g : Game)
      (s : step) :
  dealt_ok deck g ->
  dealers_turn fuel g = Some s ->
  shows_cards_of deck (output_of s) /\ dealt_ok deck (game_of s).
Proof.
  intros (Hok & Hdeck & Hdc) Hturn.
  destruct (dealers_turn_hands_ok _ _ _ Hok Hturn) as [Hok' Hc'].
  assert (H2 : shows_cards_of deck
                 ([printf DEALERS_TURN]
                  ++ showCards (dealer g) 2 (dealer_score g) 0)).
  { apply shows_app. split; [apply shows_printf|].
    apply shows_showCards. rewrite <- Hdeck.
    etransitivity; [apply (hand_subseteq _ 2 (dealer_count g)); lia|].
    by apply hands_of_deck. }
  revert Hturn Hok' Hc'. unfold dealers_turn.
  destruct (_ && _).
  { intros [= <-] _ _. unfold output_of, game_of.
    split; [|split; [assumption | split; assumption]].
    apply (proj2 (shows_app deck
                    ([printf DEALERS_TURN]
                     ++ showCards (dealer g) 2 (dealer_score g) 0)
                    [printf "BLACKJACK! YOU LOOSE!"])).
    split; [exact H2 | apply shows_printf]. }
  destruct (dealer_draws fuel _ g) as [r|] eqn:Hr; [|discriminate].
  destruct (dealer_draws_shows deck _ _ _ _ Hok Hdeck H2 Hr) as [Hshow Hle].
  destruct r as [[out g']|[out g']]; cbn [state_of fst snd] in *.
  - destruct (dealer_score g' =? 21);
      [destruct (player_score g' =? 21)|destruct (dealer_score g' >? 21)];
      intros [= <-] Hok' Hc'; cbn [output_of game_of] in *;
      (split; [|split; [exact Hok'|split; [congruence | cbn; lia]]]);
      try exact Hshow;
      (apply shows_app; split; [exact Hshow | apply shows_printf]).
  - intros [= <-] Hok' Hc'. cbn [output_of game_of] in *.
    split; [exact Hshow|]. split; [exact Hok'|]. split; [congruence | lia].
Qed.

Lemma players_turn_branch_shows (deck : list Card) (g : Game)
      (option : string) :
  dealt_ok deck g ->
  shows_cards_of deck (output_of (players_turn_branch g option)) /\
  dealt_ok deck (game_of (players_turn_branch g option)).
Proof.
  intros (Hok & Hdeck & Hdc).
  destruct (players_turn_branch_hands_ok g option Hok) as [Hok' Hc'].
  revert Hok' Hc'. unfold players_turn_branch.
  destruct (OPTION_INPUT_LENGTH <=? _).
  { intros _ _.
    split; [apply shows_printf | split; [assumption | split; assumption]]. }
  destruct (String.eqb option "h").
  - destruct (giveCards _ _ _ _ _ 1) as [s|s] eqn:Hs.
    + assert (Hsame : dealer_count (deal_to_player g s) = dealer_count g)
        by (by destruct s as [[[? ?] ?] ?]).
      assert (Hshow : hands_ok (deal_to_player g s) ->
                      cards (deal_to_player g s) = cards g ->
                      shows_cards_of deck
                        ([printf HIT_OR_STAND]
                         ++ showCards (player (deal_to_player g s))
                              (player_count (deal_to_player g s))
                              (player_score (deal_to_player g s)) 1)).
      { intros Hok' Hc'. apply shows_app. split; [apply shows_printf|].
        apply shows_showCards. rewrite <- Hdeck, <- Hc'.
        by apply hands_of_deck. }
      destruct (player_score _ =? 21); [|destruct (player_score _ >? 21)];
        cbn [output_of game_of]; intros Hok' Hc';
        (split; [|split; [exact Hok'|split; [congruence | cbn; lia]]]);
        try (apply Hshow; assumption).
      apply shows_app. split; [by apply Hshow | apply shows_printf].
    + cbn [output_of game_of]. intros Hok' Hc'.
      split; [apply shows_printf|]. split; [exact Hok'|].
      split; [congruence|]. by destruct s as [[[? ?] ?] ?].
  - destruct (String.eqb option "s"); cbn [output_of game_of];
      intros _ _;
      (split; [apply shows_printf | split; [assumption | split; assumption]]).
Qed.

Lemma main_loop_shows (deck : list Card) (fuel : nat) :
  forall (out : list event) (g : Game) (input : list string),
    dealt_ok deck g -> shows_cards_of deck out ->
    shows_cards_of deck (output_of_run (main_loop fuel out g input)).
Proof.
  induction fuel as [|fuel IH]; intros out g input Hg Hout; [exact Hout|].
  cbn [main_loop]. destruct (players_turn g =? 0).
  - destruct (dealers_turn (S fuel) g) as [s|] eqn:Hs; [|exact Hout].
    destruct (dealers_turn_shows deck _ _ _ Hg Hs) as [Hshow Hg'].
    destruct s as [o g'|o g'|o g']; cbn [output_of game_of] in *;
      try (apply shows_app; by split).
    apply IH; [exact Hg'|]. apply shows_app. by split.
  - destruct input as [|option input].
    + apply shows_app. split; [exact Hout | apply shows_printf].
    + destruct (players_turn_branch_shows deck g option Hg) as [Hshow Hg'].
      destruct (players_turn_branch g option) as [o g'|o g'|o g'];
        cbn [output_of game_of] in *; try (apply shows_app; by split).
      apply IH; [exact Hg'|]. apply shows_app. by split.
Qed.

Lemma giveCards_two_Done (cards receiver : list Card) (card_count : Z)
      (s : list Card * Z * Z * Z) :
  giveCards cards receiver card_count 0 0 2 = Done s ->
  exists receiver' score', s = (receiver', card_count + 2, 2, score').
Proof.
  unfold giveCards. change (Z.to_nat 2) with 2%nat. intros Hs.
  destruct (giveCards_loop_state 2 cards receiver card_count 0 0)
    as (k & receiver' & _ & Hst & Hdone & _).
  cbn zeta in Hst, Hdone. rewrite Hs in Hst, Hdone. cbn in Hst, Hdone.
  assert (k = 2%nat) as -> by (by apply Hdone). subst s. by eexists _, _.
Qed.

(** The opening either stops on a deal that leaves an array, with
    nothing printed, or goes by the player's score with two cards in
    each hand. *)
Lemma opening_view (cards0 dealer0 player0 : list Card) :
  (exists g, opening cards0 dealer0 player0 = Crash [] g) \/
  exists g first,
    dealer_count g = 2 /\ player_count g = 2 /\
    opening cards0 dealer0 player0 =
    let out := showCards (dealer g) 1 (points_ first) 0
               ++ showCards (player g) (player_count g) (player_score g) 1 in
    if player_score g =? 21 then
      let out := out ++ [printf "BLACKJACK! "]
                 ++ showCards (dealer g) 2 (dealer_score g) 0 in
      if negb (dealer_score g =? 21)
      then Break (out ++ [printf "YOU WIN!"]) g
      else Break (out ++ [printf "BLACKJACK! PUSH!"]) g
    else Next out (set_turn g 1).
Proof.
  unfold opening.
  destruct (giveCards cards0 player0 0 0 0 2) as [s|s] eqn:Hs;
    [|left; by eexists].
  apply giveCards_two_Done in Hs as (player' & ps & ->).
  cbn [deal_to_player card_count].
  destruct (giveCards cards0 dealer0 (0 + 2) 0 0 2) as [s'|s'] eqn:Hs';
    [|left; by eexists].
  apply giveCards_two_Done in Hs' as (dealer' & ds & ->).
  cbn [deal_to_dealer dealer].
  destruct (index dealer' 0) as [first|]; [|left; by eexists].
  right. exists (mkGame cards0 dealer' player' 2 2 ds ps (0 + 2 + 2) 0), first.
  split; [reflexivity|]. split; reflexivity.
Qed.

Lemma opening_shows (cards0 dealer0 player0 : list Card) :
  shows_cards_of cards0 (output_of (opening cards0 dealer0 player0)) /\
  (forall out g, opening cards0 dealer0 player0 = Next out g ->
                 dealt_ok cards0 g).
Proof.
  destruct (opening_hands_ok cards0 dealer0 player0) as [Hok Hc].
  destruct (opening_view cards0 dealer0 player0)
    as [[g Heq]|(g & first & Hdc & Hpc & Heq)]; rewrite Heq in *.
  { split; [constructor | discriminate]. }
  clear Heq. cbn zeta in *.
  assert (Hshow : hands_ok g -> cards g = cards0 ->
                  shows_cards_of cards0
                    (showCards (dealer g) 1 (points_ first) 0
                     ++ showCards (player g) (player_count g)
                                  (player_score g) 1) /\
                  shows_cards_of cards0
                    (showCards (dealer g) 2 (dealer_score g) 0)).
  { intros Hok' Hc'. destruct (hands_of_deck g Hok') as [Hp Hd].
    rewrite Hc' in Hp, Hd. rewrite Hdc in Hd.
    split; [apply shows_app; split|]; apply shows_showCards; try assumption.
    etransitivity; [apply (hand_subseteq _ 1 2); lia | exact Hd]. }
  destruct (player_score g =? 21); [destruct (negb _)|];
    cbn [output_of game_of] in *; destruct (Hshow Hok Hc) as [H1 H2].
  - split; [|discriminate].
    apply shows_app; split; [|apply shows_printf].
    apply shows_app; split; [exact H1|].
    apply shows_app; split; [apply shows_printf | exact H2].
  - split; [|discriminate].
    apply shows_app; split; [|apply shows_printf].
    apply shows_app; split; [exact H1|].
    apply shows_app; split; [apply shows_printf | exact H2].
  - split; [exact H1|]. intros out g' [= <- <-].
    split; [exact Hok|]. split; [exact Hc | cbn; lia].
Qed.

Lemma play_shows_dealt (fuel : nat)
        (cards0 dealer0 player0 : list Card) (input : list string) :
  shows_cards_of cards0
    (output_of_run (play fuel cards0 dealer0 player0 input)).
Proof.
  unfold play. destruct (opening_shows cards0 dealer0 player0) as [Hshow Hg].
  destruct (opening cards0 dealer0 player0) as [out g|out g|out g];
    cbn [output_of output_of_run] in *; try exact Hshow.
  apply main_loop_shows; [by eapply Hg | exact Hshow].
Qed.

(** X16. [showCards] is only ever handed cards that were dealt: every
    hand the round shows, for any deck, any contents of the hand arrays
    and any input, is made of cards of the deck.  No cell of a hand array
    that no card was dealt to is ever shown. *)
Theorem shown_hands_are_dealt (fuel : nat)
        (cards0 dealer0 player0 : list Card) (input : list string) :
  shows_cards_of cards0
    (output_of_run (play fuel cards0 dealer0 player0 input)).
Proof. apply play_shows_dealt. Qed.


(** ** main, from the loading of the images on *)





Section Program.
Context {rand_state : Type}.
Variable fopen : string -> option string.
Variable alloc : nat -> bool.
Variable file_path : string.
Variable srand : Z -> rand_state.
Variable rand : rand_state -> Z * rand_state.

End Program.



(** ** showCards and the rest of the array *)

Lemma show_row_ext (n : nat) :
  forall (cards cards' : list Card) (i offset : Z) (out : string),
    (forall j, i <= j < i + Z.of_nat n -> index cards j = index cards' j) ->
    show_row n cards i offset out = show_row n cards' i offset out.
Proof.
  induction n as [|n IH]; intros cards cards' i offset out Hsame;
    [reflexivity|].
  cbn [show_row]. rewrite <- (Hsame i) by lia.
  destruct (index cards i) as [card|]; [|reflexivity].
  destruct (image_at (image_ card) offset) as [img|]; [|reflexivity].
  destruct (print_line img) as [line|]; [|reflexivity].
  apply IH. intros j Hj. apply Hsame. lia.
Qed.

Lemma show_rows_ext (m : nat) :
  forall (cards cards' : list Card) (len width offset : Z) (out : string),
    (forall j, 0 <= j < len -> index cards j = index cards' j) ->
    show_rows m cards len width offset out =
    show_rows m cards' len width offset out.
Proof.
  induction m as [|m IH]; intros cards cards' len width offset out Hsame;
    [reflexivity|].
  cbn [show_rows].
  rewrite (show_row_ext (Z.to_nat len) cards cards')
    by (intros j Hj; apply Hsame; lia).
  destruct (show_row _ cards' 0 offset out); [by apply IH | reflexivity].
Qed.

(** X19. [showCards] looks at the first [length] cells of the array it
    is given and at no other: two arrays that hold the same hand there
    are printed alike, character for character, and fail alike, whatever
    the cells after the hand hold. *)
Theorem showCards_text_reads_hand_only (cards cards' : list Card)
        (length score width height player : Z) :
  hand cards length = hand cards' length ->
  showCards_text cards length score width height player =
  showCards_text cards' length score width height player.
Proof.
  intros Hhand. unfold showCards_text.
  rewrite (show_rows_ext _ cards cards'); [reflexivity|].
  intros j Hj. unfold index. destruct (0 <=? j); [|reflexivity].
  rewrite <- (lookup_take_lt cards (Z.to_nat length)) by lia.
  rewrite <- (lookup_take_lt cards' (Z.to_nat length)) by lia.
  unfold hand in Hhand. by rewrite Hhand.
Qed.

Lemma showCards_text_reads_hand_only_witness :
  showCards_text (new_deck sample_contents) 2 12 5 2 1 =
  showCards_text (take 2 (new_deck sample_contents) ++ blank_hand)
                 2 12 5 2 1.
Proof. apply showCards_text_reads_hand_only. reflexivity. Defined.

(** ** The round on an input that ends *)





Lemma stale_fits (held : Datatypes.option string) (input : list string)
      (option : string) :
  Forall fits input ->
  (forall w, held = Some w -> fits w) ->
  stale held input = Some option -> fits option.
Proof.
  intros Hin Hheld. unfold stale.
  destruct (last input) as [w|] eqn:Hlast; [|by apply Hheld].
  intros [= <-]. apply last_Some_elem_of in Hlast.
  by apply (proj1 (Forall_forall _ _) Hin).
Qed.















(** On the deck in the order of the table both hands open on two aces.
    After "s" and the end of the input the program is still in its loop
    after a hundred passes, no verdict printed; after "h" and the end of
    the input the player is dealt a king and is bust; and with the input
    closed before any word the program compares an [option] nothing was
    written to. *)
Example closed_input_examples :
  (exists out g,
      play_stdin true 100 sample_deck blank_hand blank_hand ["s"]%string
      = NoFuel out g /\ announced out = [] /\ card_count g = 4) /\
  (exists out g,
      play_stdin true 100 sample_deck blank_hand blank_hand ["h"]%string
      = Exit out g /\ announced out = [PlayerBust] /\ card_count g = 5) /\
  (exists out g,
      play_stdin true 100 sample_deck blank_hand blank_hand []
      = Undefined out g /\ announced out = [] /\ card_count g = 4) /\
  (exists out g,
      play_stdin false 100 sample_deck blank_hand blank_hand ["s"]%string
      = Waiting out g /\ announced out = [] /\ card_count g = 4).
Proof.
  split; [|split; [|split]]; eexists _, _;
    (split; [vm_compute; reflexivity|]); split; vm_compute; reflexivity.
Qed.

(** ** Standing against a dealer who is not behind, to the end of the
    input *)




(** A NUL among the bytes of a word ends the string [strcmp] reads: the
    word [h_nul_x] is a hit. *)
Example hit_before_nul :
  c_string h_nul_x = "h"%string /\
  act_on_option table_17_19 h_nul_x = act_on_option table_17_19 "h" /\
  player_count (game_of (act_on_option table_17_19 h_nul_x)) = 3.
Proof. repeat split. Qed.

(** ** The program as a whole *)


